(** * Global Workflow Updated Trigger: change detection and watermark state

    A shallow embedding of [lib/diff] ([shouldEmit]) and of the polling loop of
    [nodes/GlobalWorkflowUpdatedTrigger.node.ts], followed by the properties
    of the decision function and of the polling cycle. *)

From Stdlib Require Import ZArith Lia Ascii QArith.QArith_base QArith.Qround.
From stdpp Require Import gmap strings list pretty sorting.

Local Open Scope Z_scope.
Local Set Warnings "-register-all".

(** ** JavaScript values and operators used by the source *)

Module Js.

(** A [Date] object is represented by its time value in milliseconds since
    the epoch; [None] is the time value [NaN] of an "Invalid Date". *)
Definition Date := option Z.

(** [Number.isNaN(d.getTime())]. *)
Definition isNaN_getTime (d : Date) : bool :=
  match d with
  | Some _ => false
  | None => true
  end.

(** [a > b] on two dates: both are converted to their time values, and a
    comparison with [NaN] on either side is [false]. *)
Definition gt (a b : Date) : bool :=
  match a, b with
  | Some x, Some y => Z.ltb y x
  | _, _ => false
  end.

(** Truthiness of a value of type [string | undefined]: [undefined] and the
    empty string are falsy. *)
Definition truthy (v : option string) : bool :=
  match v with
  | None => false
  | Some s => negb (String.eqb s "")
  end.

(** [v || d] for [v : string | undefined] and a string [d]. *)
Definition or_else (v : option string) (d : string) : string :=
  match v with
  | Some s => if String.eqb s "" then d else s
  | None => d
  end.

(** [a ?? b]: [b] exactly when [a] is [null] or [undefined]. *)
Definition nullish {A} (a b : option A) : option A :=
  match a with
  | Some x => Some x
  | None => b
  end.

(** The names of the members that a plain object inherits from
    [Object.prototype]. *)
Definition prototypeKeys : list string :=
  ["constructor"; "hasOwnProperty"; "isPrototypeOf"; "propertyIsEnumerable";
   "toLocaleString"; "toString"; "valueOf"; "__proto__";
   "__defineGetter__"; "__defineSetter__"; "__lookupGetter__";
   "__lookupSetter__"].

Definition inherited (key : string) : bool :=
  bool_decide (key ∈ prototypeKeys).

(** The value of [obj[key]] for a plain object [obj] whose own properties
    hold strings: the own property, else the member inherited from
    [Object.prototype] (a function, or the prototype itself for
    ["__proto__"]: never a string), else [undefined]. *)
Inductive Read :=
  | ReadString (s : string)
  | ReadInherited
  | ReadUndefined.

#[global] Instance Read_eq_dec : EqDecision Read.
Proof. solve_decision. Defined.

Definition get (obj : gmap string string) (key : string) : Read :=
  match obj !! key with
  | Some s => ReadString s
  | None => if inherited key then ReadInherited else ReadUndefined
  end.

(** Whether the assignment [obj[key] = v] of a primitive [v] writes nothing:
    the key ["__proto__"], unless it is an own property, is the accessor
    inherited from [Object.prototype], whose setter ignores a primitive. Every
    other key becomes (or stays) an own property. *)
Definition ignoresAssignment {A} (obj : gmap string A) (key : string) : bool :=
  String.eqb key "__proto__" && bool_decide (obj !! key = None).

(** [obj[key] = v] for a string [v]. *)
Definition set {A} (obj : gmap string A) (key : string) (v : A) : gmap string A :=
  if ignoresAssignment obj key then obj else <[key := v]> obj.

(** A JavaScript number that is finite: a rational. *)
Definition Number := Q.

(** [a > 0] and [n >= a] for a number [a] and a length [n]. *)
Definition positive (a : Number) : bool := negb (Qle_bool a 0).

Definition reaches (n : nat) (a : Number) : bool :=
  Qle_bool a (inject_Z (Z.of_nat n)).

(** JSON values, for the opaque detail record returned by the REST API.
    [JUndefined] stands for an absent body. *)
Inductive Json :=
  | JUndefined
  | JNull
  | JBool (b : bool)
  | JNum (n : Z)
  | JStr (s : string)
  | JArr (items : list Json)
  | JObj (fields : gmap string Json).

(** Property read [v.key] (after [?.], so reading from [null] or [undefined]
    gives [undefined]); primitives and arrays have no own property of the
    names read by the source. *)
Definition prop (v : Json) (key : string) : Json :=
  match v with
  | JObj fields => default JUndefined (fields !! key)
  | _ => JUndefined
  end.

Definition is_nullish (v : Json) : bool :=
  match v with
  | JUndefined | JNull => true
  | _ => false
  end.

(** [a ?? b] on JSON values. *)
Definition coalesce (a b : Json) : Json :=
  if is_nullish a then b else a.

(** Truthiness of a JSON value. *)
Definition truthyJson (v : Json) : bool :=
  match v with
  | JUndefined | JNull => false
  | JBool b => b
  | JNum n => negb (Z.eqb n 0)
  | JStr s => negb (String.eqb s "")
  | JArr _ | JObj _ => true
  end.

End Js.

(** ** [lib/diff]: the decision function *)

Module Diff.

Definition EPOCH : string := "1970-01-01T00:00:00.000Z".

(** The argument object of [shouldEmit]. The declaration types [lastSyncIso]
    as [string]; at run time each of the three may be [undefined]. *)
Record Params := {
  updatedAtIso : option string;
  lastSyncIso : option string;
  seenAtIso : option string;
}.

Section WithDate.

(** [new Date(s)] for a string [s], provided by the host. *)
Variable newDate : string → Js.Date.

Definition shouldEmit (params : Params) : bool :=
  match updatedAtIso params with
  | None => false
  | Some u =>
      if negb (Js.truthy (Some u)) then false
      else
        let updatedAt := newDate u in
        if Js.isNaN_getTime updatedAt then false
        else
          let lastSync := newDate (Js.or_else (lastSyncIso params) EPOCH) in
          let seenAt := newDate (Js.or_else (seenAtIso params) EPOCH) in
          Js.gt updatedAt lastSync && Js.gt updatedAt seenAt
  end.

End WithDate.

End Diff.

(** ** [nodes/GlobalWorkflowUpdatedTrigger.node]: the polling trigger *)

Module Node.

(** *** Data *)

(** A workflow identifier as the REST API sends it: a string or a number. *)
Inductive WorkflowId :=
  | IdStr (s : string)
  | IdNum (n : Z).

(** [String(id)]; numeric identifiers are integers, printed in decimal. *)
Definition String_ (i : WorkflowId) : string :=
  match i with
  | IdStr s => s
  | IdNum n => pretty n
  end.

(** One entry of the listing. An absent or [null] field is [None]. *)
Record Workflow := {
  id : option WorkflowId;
  name : option string;
  updatedAt : option string;
  updated_at : option string;
}.

(** The body answered by [/api/v1/workflows]: an array ([null] entries are
    [None]), or some other value whose [data] field, when present, holds the
    array. *)
Inductive ListBody :=
  | BodyArray (items : list (option Workflow))
  | BodyObject (data : option (list (option Workflow))).

(** The [json] of an emitted item: [{ id, name, updatedAt, workflow? }]. *)
Record Payload := {
  payload_id : string;
  payload_name : string;
  payload_updatedAt : option string;
  payload_workflow : option Js.Json;
}.

(** The node parameters read by [trigger] that the loop uses. [excludeRegex]
    is the compiled case-insensitive expression, given by its [test]
    function (the expression has no [g] flag, so [test] keeps no state), or
    [None] ([null]) when the pattern is empty. [maxPerCycle] is a number: the
    source does not require it to be an integer. *)
Record Config := {
  intervalSeconds : Z;
  excludeRegex : option (string → bool);
  emitFullWorkflow : bool;
  maxPerCycle : Js.Number;
}.

(** [getWorkflowStaticData('global')] as found, and after [trigger] has put
    the defaults in. The finite map holds the own properties of the object
    used as a map from identifier to timestamp; it is read with [Js.get] and
    written with [Js.set]. *)
Record StoredData := {
  stored_lastSync : option string;
  stored_seenMap : option (gmap string string);
}.

Record StaticData := {
  lastSync : string;
  seenMap : gmap string string;
}.

(** What the host answers during one cycle: the listing request ([None]: the
    request throws), the call of [getWorkflow] made for the record at
    position [k] of the batch, whose identifier is [i] ([None]: the call
    throws, be it in the request or while the address is built), and the
    string produced by [new Date().toISOString()]. *)
Record Host := {
  listResponse : option ListBody;
  detailResponse : nat → string → option Js.Json;
  nowIso : string;
}.

(** The observable actions of the trigger, in the order they happen. *)
Inductive Event :=
  | EvListRequest
  | EvDetailRequest (i : string)
  | EvEmit (batch : list Payload)
  | EvError
  | EvSleep (ms : Z).

Record World := {
  staticData : StaticData;
  events : list Event;
}.

(** *** A state and exception monad for the body of [trigger] *)

Inductive Result (A : Type) :=
  | Ok (a : A)
  | Throw.
Arguments Ok {A} a.
Arguments Throw {A}.

Definition M (A : Type) : Type := World → Result A * World.

#[export] Instance M_ret : MRet M := λ A a w, (Ok a, w).

#[export] Instance M_bind : MBind M := λ A B k m w,
  match m w with
  | (Ok a, w') => k a w'
  | (Throw, w') => (Throw, w')
  end.

Definition throw {A} : M A := λ w, (Throw, w).

(** [try { m } catch { handler }]. *)
Definition try_catch {A} (m : M A) (handler : M A) : M A :=
  λ w, match m w with
       | (Ok a, w') => (Ok a, w')
       | (Throw, w') => handler w'
       end.

Definition gets {A} (f : StaticData → A) : M A :=
  λ w, (Ok (f (staticData w)), w).

Definition modify (f : StaticData → StaticData) : M unit :=
  λ w, (Ok tt, {| staticData := f (staticData w); events := events w |}).

Definition log (e : Event) : M unit :=
  λ w, (Ok tt, {| staticData := staticData w; events := events w ++ [e] |}).

(** *** The body of [trigger] *)

Section Trigger.

(** [new Date(s)] of the host, and the node parameters. *)
Variable newDate : string → Js.Date.
Variable cfg : Config.

(** [if (!staticData.lastSync) ...; if (!staticData.seenMap) ...]. *)
Definition initStaticData (s : StoredData) : StaticData :=
  {| lastSync := Js.or_else (stored_lastSync s) Diff.EPOCH;
     seenMap := default ∅ (stored_seenMap s) |}.

(** [requestJson] is the transport: it is modelled by the answer of the host
    and the record of the request. *)
Definition getAllWorkflows (h : Host) : M (list (option Workflow)) :=
  log EvListRequest;;
  match listResponse h with
  | None => throw
  | Some res =>
      mret (match res with
            | BodyArray items => items
            | BodyObject data => default [] data
            end)
  end.

(** [getWorkflow(id)], for the record at position [k] of the batch. *)
Definition getWorkflow (h : Host) (k : nat) (i : string) : M Js.Json :=
  log (EvDetailRequest i);;
  match detailResponse h k i with
  | None => throw
  | Some res => mret (Js.coalesce (Js.prop res "data") res)
  end.

(** [excludeRegex && excludeRegex.test(name)]. *)
Definition excluded (n : string) : bool :=
  match excludeRegex cfg with
  | Some re => re n
  | None => false
  end.

(** The optional enrichment of a payload: the value of its [workflow] field,
    [None] when the field is not set. *)
Definition fetchDetail (h : Host) (k : nat) (i : string) : M (option Js.Json) :=
  if emitFullWorkflow cfg then
    try_catch
      (full ← getWorkflow h k i;
       let fullData := Js.coalesce (Js.prop full "data") full in
       mret (if Js.truthyJson fullData then Some fullData else None))
      (mret None)
  else mret None.

(** [maxPerCycle > 0 && toEmit.length >= maxPerCycle]. *)
Definition capReached (toEmit : list Payload) : bool :=
  Js.positive (maxPerCycle cfg) && Js.reaches (length toEmit) (maxPerCycle cfg).

(** [shouldEmit({ updatedAtIso, lastSyncIso: lastSyncDateIso, seenAtIso })]
    for the value [seenAtIso] read from [seenMap]. A member inherited from
    [Object.prototype] is truthy and is not a string: [new Date] of it is an
    invalid date, and whatever the first tests of [shouldEmit] find, its last
    comparison is [false]. *)
Definition decision (updatedAtIso : option string) (lastSyncDateIso : string)
    (seenAtIso : Js.Read) : bool :=
  match seenAtIso with
  | Js.ReadString s =>
      Diff.shouldEmit newDate
        {| Diff.updatedAtIso := updatedAtIso;
           Diff.lastSyncIso := Some lastSyncDateIso;
           Diff.seenAtIso := Some s |}
  | Js.ReadUndefined =>
      Diff.shouldEmit newDate
        {| Diff.updatedAtIso := updatedAtIso;
           Diff.lastSyncIso := Some lastSyncDateIso;
           Diff.seenAtIso := None |}
  | Js.ReadInherited => false
  end.

(** [for (const wf of list) { ... }] over the [items] of [list], with
    [toEmit] the batch built so far.
    [continue] goes on with the rest of the list, [break] returns. *)
Fixpoint forOf (h : Host) (lastSyncDateIso : string)
    (items : list (option Workflow)) (toEmit : list Payload) : M (list Payload) :=
  match items with
  | [] => mret toEmit
  | None :: rest => forOf h lastSyncDateIso rest toEmit
  | Some wf :: rest =>
      match id wf with
      | None => forOf h lastSyncDateIso rest toEmit
      | Some rawId =>
          let i := String_ rawId in
          let n := default ("workflow-" +:+ i) (name wf) in
          if excluded n then forOf h lastSyncDateIso rest toEmit
          else
            let updatedAtIso := Js.nullish (updatedAt wf) (updated_at wf) in
            seenAtIso ← gets (λ sd, Js.get (seenMap sd) i);
            if decision updatedAtIso lastSyncDateIso seenAtIso
            then
              workflow ← fetchDetail h (length toEmit) i;
              let toEmit' :=
                toEmit ++ [{| payload_id := i; payload_name := n;
                              payload_updatedAt := updatedAtIso;
                              payload_workflow := workflow |}] in
              if capReached toEmit' then mret toEmit'
              else forOf h lastSyncDateIso rest toEmit'
            else forOf h lastSyncDateIso rest toEmit
      end
  end.

(** [staticData.seenMap[String(item.json.id)] = item.json.updatedAt]. A
    property assigned [undefined] reads as an absent one. *)
Definition storeSeen (item : Payload) (sd : StaticData) : StaticData :=
  {| lastSync := lastSync sd;
     seenMap := if Js.ignoresAssignment (seenMap sd) (payload_id item)
                then seenMap sd
                else match payload_updatedAt item with
                     | Some u => <[payload_id item := u]> (seenMap sd)
                     | None => delete (payload_id item) (seenMap sd)
                     end |}.

Definition setLastSync (s : string) (sd : StaticData) : StaticData :=
  {| lastSync := s; seenMap := seenMap sd |}.

Fixpoint forEach {A} (f : A → M unit) (l : list A) : M unit :=
  match l with
  | [] => mret tt
  | x :: l' => f x;; forEach f l'
  end.

(** The first statements inside [try { ... }]: the listing, the watermark
    read once, and the scan that builds [toEmit]. *)
Definition buildBatch (h : Host) : M (list Payload) :=
  list ← getAllWorkflows h;
  lastSyncDateIso ← gets lastSync;
  forOf h lastSyncDateIso list [].

(** [if (toEmit.length) { this.emit([toEmit]); ... }]. The sink of the host
    takes the batch and returns. *)
Definition commit (h : Host) (toEmit : list Payload) : M unit :=
  if Nat.eqb (length toEmit) 0 then mret tt
  else
    log (EvEmit toEmit);;
    modify (setLastSync (nowIso h));;
    forEach (λ item, modify (storeSeen item)) toEmit.

(** The statements inside [try { ... }] of one iteration of [loop]. *)
Definition cycleBody (h : Host) : M unit :=
  toEmit ← buildBatch h;
  commit h toEmit.

(** One iteration of [while (active)]: the guarded body, then the sleep. *)
Definition iteration (h : Host) : M unit :=
  try_catch (cycleBody h) (log EvError);;
  log (EvSleep (intervalSeconds cfg * 1000)).

(** [loop], for the iterations that start before [closeFunction] clears
    [active]: one host answer per iteration. *)
Fixpoint loop (hosts : list Host) : M unit :=
  match hosts with
  | [] => mret tt
  | h :: hosts' => iteration h;; loop hosts'
  end.

(** [trigger]: the defaults, then the loop. *)
Definition trigger (stored : StoredData) (hosts : list Host) : Result unit * World :=
  loop hosts {| staticData := initStaticData stored; events := [] |}.

End Trigger.

End Node.

(** ** A date parser for the examples

    [new Date(s)] on the strings written by [toISOString], that is
    [YYYY-MM-DDTHH:mm:ss.sssZ]; any other string is an invalid date here. The
    general results below hold for every parser; this one instantiates them
    on concrete inputs. *)

Module IsoDate.

Definition digit (c : ascii) : option Z :=
  let n := Z.of_nat (nat_of_ascii c) in
  if Z.leb 48 n && Z.leb n 57 then Some (n - 48) else None.

Fixpoint number (cs : list ascii) (acc : Z) : option Z :=
  match cs with
  | [] => Some acc
  | c :: cs' =>
      match digit c with
      | Some d => number cs' (10 * acc + d)
      | None => None
      end
  end.

Definition isLeap (y : Z) : bool :=
  (Z.eqb (y mod 4) 0 && negb (Z.eqb (y mod 100) 0)) || Z.eqb (y mod 400) 0.

Definition daysInMonth (y m : Z) : Z :=
  if Z.eqb m 2 then (if isLeap y then 29 else 28)
  else if Z.eqb m 4 || Z.eqb m 6 || Z.eqb m 9 || Z.eqb m 11 then 30
  else 31.

(** Days from 1970-01-01 to the civil date [y]-[m]-[d]. *)
Definition daysFromCivil (y m d : Z) : Z :=
  let y' := if Z.leb m 2 then y - 1 else y in
  let era := y' / 400 in
  let yoe := y' - era * 400 in
  let mp := if Z.ltb 2 m then m - 3 else m + 9 in
  let doy := (153 * mp + 2) / 5 + d - 1 in
  let doe := yoe * 365 + yoe / 4 - yoe / 100 + doy in
  era * 146097 + doe - 719468.

Definition field (cs : list ascii) (from len : nat) : option Z :=
  number (take len (drop from cs)) 0.

Definition separators (cs : list ascii) : list (option ascii) :=
  [cs !! 4%nat; cs !! 7%nat; cs !! 10%nat; cs !! 13%nat; cs !! 16%nat;
   cs !! 19%nat; cs !! 23%nat].

Definition expected : list (option ascii) :=
  Some <$> String.list_ascii_of_string "--T::.Z".

Definition newDate (s : string) : Js.Date :=
  let cs := String.list_ascii_of_string s in
  if negb (Nat.eqb (length cs) 24) then None
  else if negb (bool_decide (separators cs = expected)) then None
  else
    y ← field cs 0 4;
    mo ← field cs 5 2;
    d ← field cs 8 2;
    h ← field cs 11 2;
    mi ← field cs 14 2;
    sec ← field cs 17 2;
    ms ← field cs 20 3;
    if Z.leb 1 mo && Z.leb mo 12 && Z.leb 1 d && Z.leb d (daysInMonth y mo)
       && Z.leb h 23 && Z.leb mi 59 && Z.leb sec 59
    then Some ((((daysFromCivil y mo d * 24 + h) * 60 + mi) * 60 + sec) * 1000 + ms)
    else None.

End IsoDate.

(** ** Vocabulary of the properties

    Pure readings of the scan, proved below to agree with [Node.forOf]. *)

Module Spec.
Import Node.

Section Spec.

Variable newDate : string → Js.Date.
Variable cfg : Config.

(** The parsed watermark: the stored string, or the epoch when it is absent
    or empty. *)
Definition watermark (raw : option string) : Js.Date :=
  newDate (Js.or_else raw Diff.EPOCH).

(** The record built for one entry of the listing, before enrichment, when
    the entry passes the skip tests and the decision against the watermarks
    [ls] and [seen]. *)
Definition candidate (ls : string) (seen : gmap string string)
    (wf : option Workflow) : option Payload :=
  match wf with
  | None => None
  | Some wf =>
      match id wf with
      | None => None
      | Some rawId =>
          let i := String_ rawId in
          let n := default ("workflow-" +:+ i) (name wf) in
          if excluded cfg n then None
          else
            let u := Js.nullish (updatedAt wf) (updated_at wf) in
            if decision newDate u ls (Js.get seen i)
            then Some {| payload_id := i; payload_name := n;
                         payload_updatedAt := u; payload_workflow := None |}
            else None
      end
  end.

(** The [workflow] field set from the answer [res] to a detail request. *)
Definition enrichment (res : option Js.Json) : option Js.Json :=
  if emitFullWorkflow cfg then
    match res with
    | None => None
    | Some res =>
        let full := Js.coalesce (Js.prop res "data") res in
        let fullData := Js.coalesce (Js.prop full "data") full in
        if Js.truthyJson fullData then Some fullData else None
    end
  else None.

Definition withWorkflow (p : Payload) (d : option Js.Json) : Payload :=
  {| payload_id := payload_id p; payload_name := payload_name p;
     payload_updatedAt := payload_updatedAt p; payload_workflow := d |}.

(** A record without its [workflow] field. *)
Definition strip (p : Payload) : Payload := withWorkflow p None.

(** The records appended by the scan of [items] when [k] records are already
    in the batch. *)
Fixpoint scan (h : Host) (ls : string) (seen : gmap string string)
    (items : list (option Workflow)) (k : nat) : list Payload :=
  match items with
  | [] => []
  | wf :: rest =>
      match candidate ls seen wf with
      | None => scan h ls seen rest k
      | Some p =>
          withWorkflow p (enrichment (detailResponse h k (payload_id p)))
          :: (if Js.positive (maxPerCycle cfg)
                 && Js.reaches (S k) (maxPerCycle cfg)
              then [] else scan h ls seen rest (S k))
      end
  end.

(** The detail requests made while the records [b] were appended. *)
Definition detailEvents (b : list Payload) : list Event :=
  if emitFullWorkflow cfg then (λ p, EvDetailRequest (payload_id p)) <$> b else [].

(** The entries of a listing body. *)
Definition entries (body : ListBody) : list (option Workflow) :=
  match body with
  | BodyArray items => items
  | BodyObject data => default [] data
  end.

(** Every qualifying entry of [items], in order, before enrichment. *)
Definition qualifying (sd : StaticData) (items : list (option Workflow)) : list Payload :=
  omap (candidate (lastSync sd) (seenMap sd)) items.

(** The cap as a number of records, the least length that reaches
    [maxPerCycle]: [None] when there is none. *)
Definition cap : option nat :=
  if Js.positive (maxPerCycle cfg)
  then Some (Z.to_nat (Qceiling (maxPerCycle cfg)))
  else None.

Definition capped {A} (l : list A) : list A :=
  match cap with
  | Some n => take n l
  | None => l
  end.

(** The assignment of [storeSeen] when it writes an own property. *)
Definition store (item : Payload) (sd : StaticData) : StaticData :=
  {| lastSync := lastSync sd;
     seenMap := match payload_updatedAt item with
                | Some u => <[payload_id item := u]> (seenMap sd)
                | None => delete (payload_id item) (seenMap sd)
                end |}.

(** The watermark state after the records [b] have been stored. *)
Definition stored (now : string) (b : list Payload) (sd : StaticData) : StaticData :=
  foldl (λ acc item, store item acc) (setLastSync now sd) b.

(** The record [r] carries a timestamp, and its identifier can be written to
    the map [seen]. *)
Definition writable (seen : gmap string string) (r : Payload) : Prop :=
  Js.ignoresAssignment seen (payload_id r) = false ∧ is_Some (payload_updatedAt r).

(** The batches handed to the emission sink in a trace. *)
Definition emissions (evs : list Event) : list (list Payload) :=
  omap (λ e, match e with EvEmit b => Some b | _ => None end) evs.

(** The identifiers of the detail requests in a trace. *)
Definition detailRequests (evs : list Event) : list string :=
  omap (λ e, match e with EvDetailRequest i => Some i | _ => None end) evs.

(** The events a step adds to the trace. *)
Definition added (w w' : World) : list Event :=
  drop (length (events w)) (events w').

(** The batch a cycle builds from the watermark state [sd]; [None] when the
    listing request throws. *)
Definition batch (h : Host) (sd : StaticData) : option (list Payload) :=
  (λ body, scan h (lastSync sd) (seenMap sd) (entries body) 0) <$> listResponse h.

(** The world after one iteration of the loop. *)
Definition step (h : Host) (w : World) : World :=
  let sleep := EvSleep (intervalSeconds cfg * 1000) in
  match batch h (staticData w) with
  | None =>
      {| staticData := staticData w;
         events := events w ++ [EvListRequest; EvError; sleep] |}
  | Some [] =>
      {| staticData := staticData w;
         events := events w ++ [EvListRequest; sleep] |}
  | Some b =>
      {| staticData := stored (nowIso h) b (staticData w);
         events := events w ++ EvListRequest :: detailEvents b ++ [EvEmit b; sleep] |}
  end.

(** The host [h] answering the listing request with the array [items]. *)
Definition withListing (h : Host) (items : list (option Workflow)) : Host :=
  {| listResponse := Some (BodyArray items);
     detailResponse := detailResponse h;
     nowIso := nowIso h |}.

(** The display name of an entry whose identifier prints as [i]. *)
Definition displayName (i : string) (wf : Workflow) : string :=
  default ("workflow-" +:+ i) (name wf).

(** The update timestamp of an entry: the camel-case key, then the
    snake-case one. *)
Definition updatedAtOf (wf : Workflow) : option string :=
  Js.nullish (updatedAt wf) (updated_at wf).

(** No entry of [items] carries a timestamp later than the time of [now]. *)
Definition noneLaterThan (now : string) (items : list (option Workflow)) : Prop :=
  ∀ wf u, Some wf ∈ items → updatedAtOf wf = Some u →
          Js.gt (newDate u) (watermark (Some now)) = false.

(** The time of [now] is not earlier than the time of [ls]. *)
Definition notEarlier (ls now : string) : Prop :=
  ∃ t0 t1, watermark (Some ls) = Some t0 ∧ watermark (Some now) = Some t1 ∧ t0 ≤ t1.

(** The worlds after each iteration of a run, the first one included. *)
Fixpoint worlds (hosts : list Host) (w : World) : list World :=
  match hosts with
  | [] => [w]
  | h :: hosts' => w :: worlds hosts' (step h w)
  end.

(** The host [h] answering the listing request with [body]. *)
Definition withBody (h : Host) (body : ListBody) : Host :=
  {| listResponse := Some body;
     detailResponse := detailResponse h;
     nowIso := nowIso h |}.

(** Every stored [seenMap] value is a non-empty string that parses as a
    date. *)
Definition seenValid (sd : StaticData) : Prop :=
  ∀ i s, seenMap sd !! i = Some s → s ≠ "" ∧ is_Some (newDate s).

(** The static data as the host keeps it between two runs of [trigger]. *)
Definition persist (sd : StaticData) : StoredData :=
  {| stored_lastSync := Some (lastSync sd); stored_seenMap := Some (seenMap sd) |}.


(** The sleeps and the listing requests of a trace. *)
Definition sleeps (evs : list Event) : list Z :=
  omap (λ e, match e with EvSleep ms => Some ms | _ => None end) evs.

Definition listRequests (evs : list Event) : list unit :=
  omap (λ e, match e with EvListRequest => Some tt | _ => None end) evs.

End Spec.

End Spec.

(** ** The transport of the trigger: addresses and request options *)

Module Transport.

(** [s.replace(/\/+$/, '')]: the run of slashes that ends the string is
    removed. *)
Fixpoint trimTrailingSlashes (s : string) : string :=
  match s with
  | EmptyString => EmptyString
  | String c rest =>
      let rest' := trimTrailingSlashes rest in
      if Ascii.eqb c "/" && String.eqb rest' "" then "" else String c rest'
  end.

(** The characters [encodeURIComponent] leaves alone: letters, digits and
    [- _ . ! ~ * ' ( )]. *)
Definition unreserved (c : ascii) : bool :=
  let n := nat_of_ascii c in
  (Nat.leb 65 n && Nat.leb n 90) || (Nat.leb 97 n && Nat.leb n 122)
  || (Nat.leb 48 n && Nat.leb n 57)
  || bool_decide (c ∈ String.list_ascii_of_string "-_.!~*'()").

Definition hexDigit (n : nat) : ascii :=
  nth n (String.list_ascii_of_string "0123456789ABCDEF") "0"%char.

(** The escape [%XX] of one byte. *)
Definition percent (c : ascii) : string :=
  let n := nat_of_ascii c in
  String "%" (String (hexDigit (n / 16)) (String (hexDigit (n mod 16)) "")).

(** [encodeURIComponent(s)], on the UTF-8 bytes of [s]: a byte other than an
    unreserved character becomes its escape. *)
Fixpoint encodeURIComponent (s : string) : string :=
  match s with
  | EmptyString => EmptyString
  | String c rest =>
      (if unreserved c then String c "" else percent c)
      +:+ encodeURIComponent rest
  end.

(** A run of [k] slashes. *)
Fixpoint slashes (k : nat) : string :=
  match k with
  | O => ""
  | S k' => String "/" (slashes k')
  end.

(** The characters an encoded component is made of. *)
Definition safeChar (c : ascii) : bool :=
  unreserved c || Ascii.eqb c "%".

(** The value of a hexadecimal digit, and the byte two digits stand for. *)
Definition hexValue (c : ascii) : nat :=
  let n := nat_of_ascii c in
  if Nat.leb 65 n then n - 55 else n - 48.

Definition byteOfHex (hi lo : ascii) : ascii :=
  ascii_of_nat (hexValue hi * 16 + hexValue lo).

(** The byte an escape [%XX] at the head of a string stands for. *)
Definition unescape (s : string) : ascii :=
  match s with
  | String _ (String hi (String lo _)) => byteOfHex hi lo
  | _ => "000"%char
  end.

(** The two paths the trigger requests. *)
Definition listPath : string := "/api/v1/workflows".

Definition workflowPath (i : string) : string :=
  "/api/v1/workflows/" +:+ encodeURIComponent i.

(** The options object built by [requestJson]. *)
Record RequestOptions := {
  method : string;
  uri : string;
  json : bool;
  timeout : Z;
  headers : gmap string string;
}.

(** The helper [requestJson] hands the options to. *)
Inductive Call :=
  | RequestWithAuthentication (credentialType : string) (options : RequestOptions)
  | Request (options : RequestOptions).

Definition optionsOf (c : Call) : RequestOptions :=
  match c with
  | RequestWithAuthentication _ options => options
  | Request options => options
  end.

Section RequestJson.

(** The node parameters [baseUrl] and [requestTimeoutMs], whether the
    [n8nApi] credentials were found, and whether the host offers
    [requestWithAuthentication]. *)
Variable baseUrlParameter : string.
Variable requestTimeoutMs : Z.
Variable n8nApiCreds : bool.
Variable hasRequestWithAuthentication : bool.

Definition baseUrl : string := trimTrailingSlashes baseUrlParameter.

Definition requestJson (path : string) : Call :=
  let options :=
    {| method := "GET";
       uri := baseUrl +:+ path;
       json := true;
       timeout := requestTimeoutMs;
       headers := {[ "Accept" := "application/json" ]} |} in
  if n8nApiCreds && hasRequestWithAuthentication
  then RequestWithAuthentication "n8nApi" options
  else Request options.

End RequestJson.

End Transport.

(** ** The earlier revision of the node: credentials as request headers *)

Module Legacy.

(** The [httpBasicAuth] and [httpHeaderAuth] credentials, with the fields the
    node reads; an absent field is [None]. *)
Record BasicAuth := {
  user : option string;
  password : option string;
}.

Record HeaderAuth := {
  name : option string;
  value : option string;
}.

(** [tryGetCreds]: the credentials, or [null] when the lookup throws or
    finds nothing. *)
Definition tryGetCreds {A} (lookup : Node.Result (option A)) : option A :=
  match lookup with
  | Node.Ok c => c
  | Node.Throw => None
  end.

(** The header a [httpHeaderAuth] credential stands for:
    [headerAuth.name || 'X-N8N-API-KEY'] and [headerAuth.value || '']. *)
Definition headerKey (ha : HeaderAuth) : string :=
  Js.or_else (name ha) "X-N8N-API-KEY".

Definition headerValue (ha : HeaderAuth) : string :=
  Js.or_else (value ha) "".

Section BuildAuthHeaders.

(** [Buffer.from(s).toString('base64')]. *)
Variable base64 : string → string.

(** The [Authorization] value of a [httpBasicAuth] credential. *)
Definition basicToken (b : BasicAuth) : string :=
  "Basic " +:+ base64 (default "" (user b) +:+ ":" +:+ default "" (password b)).

Definition buildAuthHeaders (basic : option BasicAuth)
    (headerAuth : option HeaderAuth) : gmap string string :=
  let headers : gmap string string := {[ "Accept" := "application/json" ]} in
  let headers :=
    match basic with
    | Some b =>
        let user := default "" (user b) in
        let password := default "" (password b) in
        let token := base64 (user +:+ ":" +:+ password) in
        <[ "Authorization" := "Basic " +:+ token ]> headers
    | None => headers
    end in
  match headerAuth with
  | Some ha =>
      let name := Js.or_else (name ha) "X-N8N-API-KEY" in
      let value := Js.or_else (value ha) "" in
      if Js.truthy (Some value) then Js.set headers name value else headers
  | None => headers
  end.

(** [requestJson] of that revision: every request carries the headers. *)
Definition requestJson (baseUrl : string) (requestTimeoutMs : Z)
    (basic : option BasicAuth) (headerAuth : option HeaderAuth)
    (path : string) : Transport.RequestOptions :=
  {| Transport.method := "GET";
     Transport.uri := baseUrl +:+ path;
     Transport.json := true;
     Transport.timeout := requestTimeoutMs;
     Transport.headers := buildAuthHeaders basic headerAuth |}.

End BuildAuthHeaders.

End Legacy.

(** ** Stopping the loop *)

Module Lifecycle.
Import Node.

Section Lifecycle.

Variable newDate : string → Js.Date.
Variable cfg : Config.

(** [loop] with the flag [active]. [closeFunction] can only run while the
    loop is suspended, that is during an iteration (at a request or at the
    sleep); the flag is read when the iteration is over. Each iteration comes
    with the answers of the host and with whether [closeFunction] ran during
    it. *)
Fixpoint loopWhileActive (schedule : list (Host * bool)) : M unit :=
  match schedule with
  | [] => mret tt
  | (h, closed) :: schedule' =>
      Node.iteration newDate cfg h;;
      if closed then mret tt else loopWhileActive schedule'
  end.

End Lifecycle.

(** The iterations of a schedule that run: those up to and including the
    first one during which [closeFunction] ran. *)
Fixpoint started (schedule : list (Host * bool)) : list Host :=
  match schedule with
  | [] => []
  | (h, closed) :: schedule' => h :: (if closed then [] else started schedule')
  end.

End Lifecycle.

(** ** Concrete inputs for the examples *)

Module Scenario.
Import Node.

Definition t1200 : string := "2025-10-29T12:00:00.000Z".
Definition t1205 : string := "2025-10-29T12:05:00.000Z".
Definition t1210 : string := "2025-10-29T12:10:00.000Z".
Definition t1211 : string := "2025-10-29T12:11:00.000Z".
Definition t1212 : string := "2025-10-29T12:12:00.000Z".
Definition t1230 : string := "2025-10-29T12:30:00.000Z".

(** The node parameters, with the pattern [^_] and the given cap. *)
Definition configWith (cap : Js.Number) : Config :=
  {| intervalSeconds := 10;
     excludeRegex := Some (String.prefix "_");
     emitFullWorkflow := true;
     maxPerCycle := cap |}.

Definition config (cap : Z) : Config := configWith (inject_Z cap).

Definition workflow (i : WorkflowId) (n u : string) : Workflow :=
  {| id := Some i; name := Some n; updatedAt := Some u; updated_at := None |}.

Definition orders : Workflow := workflow (IdNum 7) "Orders" t1210.
Definition ordersLater : Workflow := workflow (IdNum 7) "Orders" t1211.
Definition billing : Workflow := workflow (IdStr "b2") "Billing" t1211.
Definition stale : Workflow := workflow (IdStr "s3") "Stale" t1200.

Definition record (i n u : string) (d : option Js.Json) : Payload :=
  {| payload_id := i; payload_name := n; payload_updatedAt := Some u;
     payload_workflow := d |}.

(** A detail answer [{ data: { id } }], and a failing detail request. *)
Definition detailOk (k : nat) (i : string) : option Js.Json :=
  Some (Js.JObj {[ "data" := Js.JObj {[ "id" := Js.JStr i ]} ]}).

Definition detailFails (k : nat) (i : string) : option Js.Json := None.

(** A host whose detail request fails for the identifier [bad] only. *)
Definition detailFailsFor (bad : string) (k : nat) (i : string) : option Js.Json :=
  if String.eqb i bad then None else detailOk k i.

Definition catalog : Workflow := workflow (IdStr "c3") "Catalog" t1211.

Definition detailOf (i : string) : Js.Json := Js.JObj {[ "id" := Js.JStr i ]}.

Definition host (items : list Workflow) (detail : nat → string → option Js.Json)
    (now : string) : Host :=
  {| listResponse := Some (BodyArray (Some <$> items));
     detailResponse := detail;
     nowIso := now |}.

Definition hostDown (now : string) : Host :=
  {| listResponse := None; detailResponse := detailFails; nowIso := now |}.

(** The world of a trigger whose static data holds [lastSync] and nothing
    else. *)
Definition startedAt (ls : string) : World :=
  {| staticData := initStaticData {| stored_lastSync := Some ls;
                                     stored_seenMap := None |};
     events := [] |}.

(** The world of a trigger started on empty static data. *)
Definition fresh : World :=
  {| staticData := initStaticData {| stored_lastSync := None;
                                     stored_seenMap := None |};
     events := [] |}.

End Scenario.

(** * Properties of the decision function *)

Section DiffFacts.

Variable newDate : string → Js.Date.

Local Abbreviation watermark := (Spec.watermark newDate).
Local Abbreviation shouldEmit := (Diff.shouldEmit newDate).

Lemma truthy_Some (s : string) : Js.truthy (Some s) = true ↔ s ≠ "".
Proof.
  unfold Js.truthy. destruct (String.eqb_spec s ""); simpl; split; intros; congruence.
Qed.

Lemma or_else_truthy (s d : string) : s ≠ "" → Js.or_else (Some s) d = s.
Proof.
  intros Hs. unfold Js.or_else. destruct (String.eqb_spec s ""); congruence.
Qed.

Lemma gt_Some (a b : Js.Date) :
  Js.gt a b = true ↔ ∃ x y, a = Some x ∧ b = Some y ∧ y < x.
Proof.
  destruct a as [x|], b as [y|]; simpl; split.
  - intros H. exists x, y. repeat split. lia.
  - intros (x' & y' & [= ->] & [= ->] & H). lia.
  - discriminate.
  - intros (? & ? & _ & ? & _). discriminate.
  - discriminate.
  - intros (? & ? & ? & _). discriminate.
  - discriminate.
  - intros (? & ? & ? & _). discriminate.
Qed.

Lemma gt_NaN_r (a : Js.Date) : Js.gt a None = false.
Proof. by destruct a. Qed.

Lemma gt_irrefl (a : Js.Date) : Js.gt a a = false.
Proof. destruct a; simpl; [lia | done]. Qed.

(** The decision as one boolean expression. *)
Lemma shouldEmit_unfold (p : Diff.Params) :
  shouldEmit p =
  match Diff.updatedAtIso p with
  | None => false
  | Some u =>
      Js.truthy (Some u) && negb (Js.isNaN_getTime (newDate u))
      && Js.gt (newDate u) (watermark (Diff.lastSyncIso p))
      && Js.gt (newDate u) (watermark (Diff.seenAtIso p))
  end.
Proof.
  unfold Diff.shouldEmit, Spec.watermark.
  destruct (Diff.updatedAtIso p) as [u|]; [|done].
  destruct (Js.truthy (Some u)); simpl; [|done].
  by destruct (newDate u).
Qed.

(** The positive decision, read as a statement about parsed times. *)
Lemma shouldEmit_true (p : Diff.Params) :
  shouldEmit p = true ↔
  ∃ u t, Diff.updatedAtIso p = Some u ∧ u ≠ "" ∧ newDate u = Some t ∧
    (∃ l, watermark (Diff.lastSyncIso p) = Some l ∧ l < t) ∧
    (∃ s, watermark (Diff.seenAtIso p) = Some s ∧ s < t).
Proof.
  rewrite shouldEmit_unfold. split.
  - destruct (Diff.updatedAtIso p) as [u|]; [|done].
    rewrite !andb_true_iff, !gt_Some, truthy_Some.
    intros [[[Hu _] (x & l & Hx & Hl & Hlt)] (x' & s & Hx' & Hs & Hst)].
    rewrite Hx in Hx'. injection Hx' as <-. exists u, x. eauto 10.
  - intros (u & t & -> & Hu & Ht & (l & Hl & Hlt) & (s & Hs & Hst)).
    rewrite Ht, Hl, Hs. simpl.
    apply truthy_Some in Hu. simpl in Hu. rewrite Hu. simpl.
    apply andb_true_iff. split; lia.
Qed.

(** C1. [shouldEmit] answers [true] exactly when [updatedAtIso] is present,
    non-empty and parses to a valid time strictly greater than the parsed
    [lastSync] watermark and strictly greater than the parsed [seenAt]
    watermark. In particular an absent, empty or unparseable [updatedAtIso]
    gives [false], and so does a time equal to either watermark. *)
Theorem shouldEmit_iff (p : Diff.Params) :
  (shouldEmit p = true ↔
     ∃ u t, Diff.updatedAtIso p = Some u ∧ u ≠ "" ∧ newDate u = Some t ∧
       (∃ l, watermark (Diff.lastSyncIso p) = Some l ∧ l < t) ∧
       (∃ s, watermark (Diff.seenAtIso p) = Some s ∧ s < t))
  ∧ (Diff.updatedAtIso p = None → shouldEmit p = false)
  ∧ (Diff.updatedAtIso p = Some "" → shouldEmit p = false)
  ∧ (∀ u, Diff.updatedAtIso p = Some u → newDate u = None → shouldEmit p = false)
  ∧ (∀ u, Diff.updatedAtIso p = Some u →
       newDate u = watermark (Diff.lastSyncIso p)
       ∨ newDate u = watermark (Diff.seenAtIso p) →
       shouldEmit p = false).
Proof.
  rewrite shouldEmit_unfold. repeat split.
  - destruct (Diff.updatedAtIso p) as [u|]; [|done].
    rewrite !andb_true_iff, !gt_Some, truthy_Some.
    intros [[[Hu _] (x & l & Hx & Hl & Hlt)] (x' & s & Hx' & Hs & Hst)].
    rewrite Hx in Hx'. injection Hx' as <-. exists u, x. eauto 10.
  - intros (u & t & -> & Hu & Ht & (l & Hl & Hlt) & (s & Hs & Hst)).
    rewrite Ht, Hl, Hs. simpl.
    apply truthy_Some in Hu. simpl in Hu. rewrite Hu. simpl.
    apply andb_true_iff. split; lia.
  - by intros ->.
  - by intros ->.
  - intros u -> ->. simpl. by rewrite andb_false_r.
  - intros u -> [-> | ->]; rewrite gt_irrefl; by rewrite ?andb_false_r.
Qed.

(** A corrupted watermark (a non-empty string that is not a date) is not
    read as the epoch: the comparison with its [NaN] time value fails. *)
Lemma shouldEmit_corrupted (p : Diff.Params) (raw : string) :
  raw ≠ "" → newDate raw = None →
  Diff.lastSyncIso p = Some raw ∨ Diff.seenAtIso p = Some raw →
  shouldEmit p = false.
Proof.
  intros Hne Hbad Hp. rewrite shouldEmit_unfold.
  destruct (Diff.updatedAtIso p) as [u|]; [|done].
  unfold Spec.watermark.
  destruct Hp as [-> | ->]; rewrite (or_else_truthy _ _ Hne), Hbad, gt_NaN_r;
    by rewrite ?andb_false_r.
Qed.

(** C3, as the code has it. An absent or empty [lastSyncIso] or [seenAtIso]
    gives the result of the call with the epoch string in its place. A
    corrupted one (non-empty, not a date) gives [false] whatever the other
    arguments are. *)
Theorem shouldEmit_watermark_default (u l s : option string) :
  (Js.truthy l = false →
     shouldEmit {| Diff.updatedAtIso := u; Diff.lastSyncIso := l; Diff.seenAtIso := s |}
     = shouldEmit {| Diff.updatedAtIso := u; Diff.lastSyncIso := Some Diff.EPOCH;
                     Diff.seenAtIso := s |})
  ∧ (Js.truthy s = false →
     shouldEmit {| Diff.updatedAtIso := u; Diff.lastSyncIso := l; Diff.seenAtIso := s |}
     = shouldEmit {| Diff.updatedAtIso := u; Diff.lastSyncIso := l;
                     Diff.seenAtIso := Some Diff.EPOCH |})
  ∧ (∀ raw, raw ≠ "" → newDate raw = None → l = Some raw ∨ s = Some raw →
     shouldEmit {| Diff.updatedAtIso := u; Diff.lastSyncIso := l; Diff.seenAtIso := s |}
     = false).
Proof.
  repeat split.
  - intros Hl. rewrite !shouldEmit_unfold. simpl. unfold Spec.watermark.
    destruct l as [l|]; [|done]. simpl in Hl.
    apply negb_false_iff, String.eqb_eq in Hl. by subst l.
  - intros Hs. rewrite !shouldEmit_unfold. simpl. unfold Spec.watermark.
    destruct s as [s|]; [|done]. simpl in Hs.
    apply negb_false_iff, String.eqb_eq in Hs. by subst s.
  - intros raw Hne Hbad H. by apply (shouldEmit_corrupted _ raw).
Qed.

End DiffFacts.

(** * Properties of the polling cycle *)

Section NodeFacts.

Import Node Spec.

Variable newDate : string → Js.Date.
Variable cfg : Config.

Local Abbreviation candidate := (Spec.candidate newDate cfg).
Local Abbreviation scan := (Spec.scan newDate cfg).
Local Abbreviation qualifying := (Spec.qualifying newDate cfg).
Local Abbreviation enrichment := (Spec.enrichment cfg).
Local Abbreviation detailEvents := (Spec.detailEvents cfg).
Local Abbreviation capped := (@Spec.capped cfg).
Local Abbreviation forOf := (Node.forOf newDate cfg).
Local Abbreviation buildBatch := (Node.buildBatch newDate cfg).
Local Abbreviation cycleBody := (Node.cycleBody newDate cfg).
Local Abbreviation iteration := (Node.iteration newDate cfg).
Local Abbreviation loop := (Node.loop newDate cfg).

(** ** The cap as a number of records, and the read of [seenMap] *)

Lemma Qceiling_le (q : Q) (z : Z) : Qceiling q ≤ z ↔ (q <= inject_Z z)%Q.
Proof.
  split.
  - intros H. eapply Qle_trans; [apply Qle_ceiling|]. by rewrite <- Zle_Qle.
  - intros H. apply Qceiling_resp_le in H. by rewrite Qceiling_Z in H.
Qed.

Lemma positive_ceiling (q : Js.Number) : Js.positive q = true ↔ 0 < Qceiling q.
Proof.
  unfold Js.positive. rewrite negb_true_iff, <- not_true_iff_false, Qle_bool_iff.
  change 0%Q with (inject_Z 0). rewrite <- Qceiling_le. lia.
Qed.

Lemma reaches_ceiling (n : nat) (q : Js.Number) :
  Js.reaches n q = true ↔ Qceiling q ≤ Z.of_nat n.
Proof. unfold Js.reaches. by rewrite Qle_bool_iff, Qceiling_le. Qed.

Lemma positive_Qlt (q : Js.Number) : (0 < q)%Q → Js.positive q = true.
Proof.
  intros Hq. unfold Js.positive. apply negb_true_iff, not_true_iff_false.
  rewrite Qle_bool_iff. by apply Qlt_not_le.
Qed.

Lemma positive_Qle (q : Js.Number) : (q <= 0)%Q → Js.positive q = false.
Proof. intros Hq. unfold Js.positive. apply negb_false_iff. by apply Qle_bool_iff. Qed.

(** A whole number that is at most the ceiling of [q] is below [q + 1]. *)
Lemma below_ceiling (q : Js.Number) (n : Z) :
  n ≤ Qceiling q → (inject_Z n < q + 1)%Q.
Proof.
  intros Hn. apply Qle_lt_trans with (inject_Z (Qceiling q)).
  - by rewrite <- Zle_Qle.
  - pose proof (Qceiling_lt q) as Hlt.
    unfold Z.sub in Hlt. rewrite inject_Z_plus in Hlt.
    apply (Qplus_lt_l _ _ (inject_Z (-1))).
    eapply Qlt_le_trans; [exact Hlt|].
    rewrite <- Qplus_assoc. change (1 + inject_Z (-1))%Q with 0%Q.
    rewrite Qplus_0_r. apply Qle_refl.
Qed.

Lemma get_inherited (seen : gmap string string) (i : string) :
  Js.get seen i = Js.ReadInherited ↔ seen !! i = None ∧ Js.inherited i = true.
Proof.
  unfold Js.get. destruct (seen !! i), (Js.inherited i);
    (split; [done|by intros [? ?]]) || done.
Qed.

(** The decision on the value read from [seenMap] is [shouldEmit] on the own
    entry, unless the read finds an inherited member. *)
Lemma decision_true (u : option string) (ls : string)
    (seen : gmap string string) (i : string) :
  decision newDate u ls (Js.get seen i) = true ↔
  Diff.shouldEmit newDate
    {| Diff.updatedAtIso := u; Diff.lastSyncIso := Some ls;
       Diff.seenAtIso := seen !! i |} = true
  ∧ Js.get seen i ≠ Js.ReadInherited.
Proof.
  unfold decision, Js.get. destruct (seen !! i), (Js.inherited i);
    (split; [done|by intros [? ?]]) || (split; [done|by intros [_ ?]]).
Qed.

Lemma decision_shouldEmit (u : option string) (ls : string) (r : Js.Read) :
  decision newDate u ls r = true →
  ∃ s, Diff.shouldEmit newDate
         {| Diff.updatedAtIso := u; Diff.lastSyncIso := Some ls;
            Diff.seenAtIso := s |} = true.
Proof. unfold decision. destruct r; [by eexists|done|by eexists]. Qed.

Lemma get_writable (seen : gmap string string) (i : string) :
  Js.get seen i ≠ Js.ReadInherited → Js.ignoresAssignment seen i = false.
Proof.
  rewrite get_inherited. unfold Js.ignoresAssignment. intros H.
  apply andb_false_iff. destruct (String.eqb_spec i "__proto__") as [->|]; [|by left].
  right. apply bool_decide_eq_false. intros Hnone. by apply H.
Qed.

(** ** The monadic scan computes the pure one *)

Lemma fetchDetail_run (h : Host) (k : nat) (i : string) (w : World) :
  fetchDetail cfg h k i w =
  (Ok (enrichment (detailResponse h k i)),
   {| staticData := staticData w;
      events := events w ++ (if emitFullWorkflow cfg then [EvDetailRequest i] else []) |}).
Proof.
  unfold fetchDetail, Spec.enrichment. destruct w as [sd evs]. simpl.
  destruct (emitFullWorkflow cfg).
  - unfold try_catch, getWorkflow, mbind, M_bind, log, throw, mret, M_ret. simpl.
    by destruct (detailResponse h k i).
  - unfold mret, M_ret. by rewrite app_nil_r.
Qed.

Lemma detailEvents_nil : detailEvents [] = [].
Proof. unfold Spec.detailEvents. by destruct (emitFullWorkflow cfg). Qed.

Lemma detailEvents_cons (p : Payload) (b : list Payload) :
  detailEvents (p :: b)
  = (if emitFullWorkflow cfg then [EvDetailRequest (payload_id p)] else [])
    ++ detailEvents b.
Proof. unfold Spec.detailEvents. by destruct (emitFullWorkflow cfg). Qed.

Lemma forOf_scan (h : Host) (ls : string) (items : list (option Workflow))
    (toEmit : list Payload) (w : World) :
  forOf h ls items toEmit w =
  (Ok (toEmit ++ scan h ls (seenMap (staticData w)) items (length toEmit)),
   {| staticData := staticData w;
      events := events w
                ++ detailEvents (scan h ls (seenMap (staticData w)) items (length toEmit)) |}).
Proof.
  revert toEmit w. induction items as [|wf rest IH]; intros toEmit [sd evs].
  - simpl. unfold mret, M_ret, Spec.detailEvents.
    rewrite !app_nil_r. by destruct (emitFullWorkflow cfg); rewrite ?app_nil_r.
  - simpl. destruct wf as [wf|]; [|apply IH].
    unfold Spec.candidate.
    destruct (id wf) as [rawId|]; [|apply IH].
    destruct (excluded cfg _); [apply IH|].
    unfold mbind at 1, M_bind at 1, gets at 1. simpl.
    destruct (decision _ _ _ _); [|apply IH].
    unfold mbind at 1, M_bind at 1. rewrite fetchDetail_run. simpl.
    unfold capReached. rewrite length_app. simpl.
    replace (length toEmit + 1)%nat with (S (length toEmit)) by lia.
    rewrite detailEvents_cons. simpl.
    destruct (_ && _).
    + unfold mret, M_ret, Spec.withWorkflow, Spec.detailEvents. simpl.
      by destruct (emitFullWorkflow cfg); rewrite ?app_nil_r.
    + rewrite IH. simpl. rewrite length_app. simpl.
      replace (length toEmit + 1)%nat with (S (length toEmit)) by lia.
      unfold Spec.withWorkflow. simpl. by rewrite <- !app_assoc.
Qed.

(** ** The pure scan: which records, in which order, with which fields *)

Lemma cap_test (k : nat) :
  Js.positive (maxPerCycle cfg) && Js.reaches k (maxPerCycle cfg)
  = match Spec.cap cfg with
    | Some n => bool_decide (n ≤ k)%nat
    | None => false
    end.
Proof.
  unfold Spec.cap. destruct (Js.positive (maxPerCycle cfg)) eqn:Hpos; simpl; [|done].
  apply positive_ceiling in Hpos.
  destruct (Js.reaches k (maxPerCycle cfg)) eqn:Hk.
  - apply reaches_ceiling in Hk. symmetry. apply bool_decide_eq_true. lia.
  - symmetry. apply bool_decide_eq_false. intros Hle.
    apply not_true_iff_false in Hk. apply Hk, reaches_ceiling. lia.
Qed.

Lemma cap_positive (n : nat) : Spec.cap cfg = Some n → (0 < n)%nat.
Proof.
  unfold Spec.cap. destruct (Js.positive (maxPerCycle cfg)) eqn:Hpos; [|done].
  apply positive_ceiling in Hpos. intros [= <-]. lia.
Qed.

Lemma candidate_Some (ls : string) (seen : gmap string string)
    (wf : option Workflow) (p : Payload) :
  candidate ls seen wf = Some p →
  payload_workflow p = None ∧
  ∃ u, payload_updatedAt p = Some u ∧
       Diff.shouldEmit newDate
         {| Diff.updatedAtIso := Some u; Diff.lastSyncIso := Some ls;
            Diff.seenAtIso := seen !! payload_id p |} = true.
Proof.
  unfold Spec.candidate. destruct wf as [wf|]; [|done].
  destruct (id wf) as [rawId|]; [|done].
  destruct (excluded cfg _); [done|].
  destruct (decision _ _ _ _) eqn:He; [|done].
  apply decision_true in He as [He _].
  intros [= <-]. simpl. split; [done|].
  destruct (Js.nullish (updatedAt wf) (updated_at wf)) as [u|] eqn:Hu.
  - by exists u.
  - by rewrite (shouldEmit_unfold newDate) in He.
Qed.

(** The identifier of a qualifying entry is not hidden by an inherited
    member: the assignment of [storeSeen] writes it. *)
Lemma candidate_writable (ls : string) (seen : gmap string string)
    (wf : option Workflow) (p : Payload) :
  candidate ls seen wf = Some p →
  Js.get seen (payload_id p) ≠ Js.ReadInherited ∧ writable seen p.
Proof.
  intros Hp. pose proof (candidate_Some _ _ _ _ Hp) as (_ & u & Hu & _).
  revert Hp. unfold Spec.candidate. destruct wf as [wf|]; [|done].
  destruct (id wf) as [rawId|]; [|done].
  destruct (excluded cfg _); [done|].
  destruct (decision _ _ _ _) eqn:He; [|done].
  apply decision_true in He as [_ He].
  intros [= <-]. simpl in *. split; [done|]. split; [by apply get_writable|].
  simpl. by rewrite Hu.
Qed.

Lemma strip_withWorkflow (p : Payload) (d : option Js.Json) :
  payload_workflow p = None → strip (withWorkflow p d) = p.
Proof. destruct p as [i n u wf]. simpl. by intros ->. Qed.

(** The records of the scan, without their [workflow] field, are the
    qualifying entries in listing order, cut at the cap. *)
Lemma scan_cores (h : Host) (ls : string) (seen : gmap string string)
    (items : list (option Workflow)) (k : nat) :
  (∀ n, Spec.cap cfg = Some n → (k < n)%nat) →
  strip <$> scan h ls seen items k =
  match Spec.cap cfg with
  | Some n => take (n - k) (omap (candidate ls seen) items)
  | None => omap (candidate ls seen) items
  end.
Proof.
  revert k. induction items as [|wf rest IH]; intros k Hk.
  - simpl. destruct (Spec.cap cfg); by rewrite ?take_nil.
  - simpl. destruct (candidate ls seen wf) as [p|] eqn:Hp; [|by apply IH].
    apply candidate_Some in Hp as [Hwf _].
    rewrite fmap_cons, (strip_withWorkflow _ _ Hwf), cap_test.
    destruct (Spec.cap cfg) as [n|] eqn:Hcap.
    + specialize (Hk n eq_refl).
      replace (n - k)%nat with (S (n - S k)) by lia. simpl. f_equal.
      case_bool_decide as Hn.
      * replace (n - S k)%nat with 0%nat by lia. by rewrite take_0.
      * rewrite IH; [done|]. intros n' [= <-]. lia.
    + f_equal. by rewrite IH.
Qed.

(** Each record carries the enrichment answered to its own detail request:
    the [j]-th appended record is served by the call at position [k + j]. *)
Lemma scan_workflow (h : Host) (ls : string) (seen : gmap string string)
    (items : list (option Workflow)) (k j : nat) (r : Payload) :
  scan h ls seen items k !! j = Some r →
  payload_workflow r = enrichment (detailResponse h (k + j) (payload_id r)).
Proof.
  revert k j. induction items as [|wf rest IH]; intros k j; simpl; [done|].
  destruct (candidate ls seen wf) as [p|]; [|by apply IH].
  destruct j as [|j]; simpl.
  - intros [= <-]. simpl. by rewrite Nat.add_0_r.
  - destruct (_ && _); [done|]. intros Hr. apply IH in Hr.
    by replace (k + S j)%nat with (S k + j)%nat by lia.
Qed.

(** ** One iteration, and the loop *)

Lemma buildBatch_run (h : Host) (w : World) :
  buildBatch h w =
  match Spec.batch newDate cfg h (staticData w) with
  | None => (Throw, {| staticData := staticData w;
                       events := events w ++ [EvListRequest] |})
  | Some b => (Ok b, {| staticData := staticData w;
                        events := events w ++ EvListRequest :: detailEvents b |})
  end.
Proof.
  unfold Node.buildBatch, Spec.batch, getAllWorkflows.
  unfold mbind, M_bind, log, gets, throw, mret, M_ret. simpl.
  destruct (listResponse h) as [body|]; simpl; [|done].
  rewrite forOf_scan. simpl. rewrite <- app_assoc. by destruct body.
Qed.

Lemma forEach_storeSeen (b : list Payload) (w : World) :
  forEach (λ item, modify (storeSeen item)) b w =
  (Ok tt, {| staticData := foldl (λ acc item, storeSeen item acc) (staticData w) b;
             events := events w |}).
Proof.
  revert w. induction b as [|r b IH]; intros [sd evs]; simpl; [done|].
  unfold mbind, M_bind, modify. simpl. by rewrite IH.
Qed.

Lemma storeSeen_store (r : Payload) (sd : StaticData) :
  Js.ignoresAssignment (seenMap sd) (payload_id r) = false →
  storeSeen r sd = Spec.store r sd.
Proof. unfold storeSeen, Spec.store. by intros ->. Qed.

Lemma writable_store (r r' : Payload) (sd : StaticData) :
  is_Some (payload_updatedAt r) →
  writable (seenMap sd) r' → writable (seenMap (Spec.store r sd)) r'.
Proof.
  intros [u Hu] [Hw Hsome]. split; [|done].
  unfold Spec.store. rewrite Hu. simpl.
  unfold Js.ignoresAssignment in *. apply andb_false_iff.
  apply andb_false_iff in Hw as [Hw|Hw]; [by left|right].
  apply bool_decide_eq_false. apply bool_decide_eq_false in Hw.
  destruct (decide (payload_id r = payload_id r')) as [->|Hne].
  - by rewrite lookup_insert_eq.
  - by rewrite lookup_insert_ne.
Qed.

(** On records that can be written, the assignments of [storeSeen] are the
    updates of the finite map. *)
Lemma foldl_storeSeen (b : list Payload) (sd : StaticData) :
  Forall (writable (seenMap sd)) b →
  foldl (λ acc item, storeSeen item acc) sd b
  = foldl (λ acc item, Spec.store item acc) sd b.
Proof.
  revert sd. induction b as [|r b IH]; intros sd Hb; simpl; [done|].
  apply Forall_cons in Hb as [[Hr Hu] Hb].
  rewrite (storeSeen_store _ _ Hr). apply IH.
  eapply Forall_impl; [exact Hb|]. intros r'. by apply writable_store.
Qed.

Lemma commit_run (h : Host) (b : list Payload) (w : World) :
  Forall (writable (seenMap (staticData w))) b →
  commit h b w =
  (Ok tt, match b with
          | [] => w
          | _ => {| staticData := Spec.stored (nowIso h) b (staticData w);
                    events := events w ++ [EvEmit b] |}
          end).
Proof.
  intros Hb. unfold commit. destruct b as [|r b]; [done|].
  cbn [length Nat.eqb]. unfold mbind, M_bind, log, modify at 1.
  rewrite forEach_storeSeen. cbn [staticData events].
  by rewrite foldl_storeSeen.
Qed.

Lemma scan_writable (h : Host) (ls : string) (seen : gmap string string)
    (items : list (option Workflow)) (k : nat) :
  Forall (writable seen) (scan h ls seen items k).
Proof.
  revert k. induction items as [|wf rest IH]; intros k; simpl; [done|].
  destruct (candidate ls seen wf) as [p|] eqn:Hp; [|apply IH].
  apply candidate_writable in Hp as [_ Hp].
  apply Forall_cons. split; [done|]. destruct (_ && _); [done|apply IH].
Qed.

Lemma iteration_run (h : Host) (w : World) :
  iteration h w = (Ok tt, Spec.step newDate cfg h w).
Proof.
  unfold Node.iteration, Node.cycleBody, Spec.step, try_catch.
  unfold mbind at 1, M_bind at 1. unfold mbind at 1, M_bind at 1.
  rewrite buildBatch_run.
  destruct (Spec.batch newDate cfg h (staticData w)) as [b|] eqn:Hb.
  - rewrite commit_run.
    2:{ unfold Spec.batch in Hb. destruct (listResponse h); [|done].
        injection Hb as <-. apply scan_writable. }
    destruct b as [|r b]; destruct w as [sd evs]; simpl.
    + unfold log. simpl. by rewrite detailEvents_nil, <- app_assoc.
    + unfold log. simpl. by rewrite <- !app_assoc.
  - destruct w as [sd evs]. unfold log. simpl. by rewrite <- !app_assoc.
Qed.

Lemma loop_run (hosts : list Host) (w : World) :
  loop hosts w = (Ok tt, foldl (λ w h, Spec.step newDate cfg h w) w hosts).
Proof.
  revert w. induction hosts as [|h hosts IH]; intros w; simpl; [done|].
  unfold mbind, M_bind. by rewrite iteration_run, IH.
Qed.

Lemma strip_withWorkflow' (p : Payload) (d : option Js.Json) :
  strip (withWorkflow p d) = strip p.
Proof. done. Qed.

(** Every record of the scan comes from an entry of the listing that
    qualifies against the watermarks the scan was started with. *)
Lemma scan_elem (h : Host) (ls : string) (seen : gmap string string)
    (items : list (option Workflow)) (k : nat) (r : Payload) :
  r ∈ scan h ls seen items k →
  ∃ wf, wf ∈ items ∧ candidate ls seen wf = Some (strip r).
Proof.
  revert k. induction items as [|wf rest IH]; intros k; simpl.
  - by intros ?%elem_of_nil.
  - destruct (candidate ls seen wf) as [p|] eqn:Hp.
    + intros [->|Hr]%elem_of_cons.
      * exists wf. split; [left|].
        rewrite strip_withWorkflow'. unfold strip.
        apply candidate_Some in Hp as Hwf. destruct Hwf as [Hwf _].
        rewrite Hp. f_equal. destruct p. simpl in *. by subst.
      * destruct (_ && _); [by apply elem_of_nil in Hr|].
        apply IH in Hr as (wf' & ? & ?). exists wf'. split; [by right|done].
    + intros Hr. apply IH in Hr as (wf' & ? & ?). exists wf'. split; [by right|done].
Qed.

Lemma scan_updatedAt (h : Host) (ls : string) (seen : gmap string string)
    (items : list (option Workflow)) (k : nat) (r : Payload) :
  r ∈ scan h ls seen items k →
  ∃ u, payload_updatedAt r = Some u ∧
       Diff.shouldEmit newDate
         {| Diff.updatedAtIso := Some u; Diff.lastSyncIso := Some ls;
            Diff.seenAtIso := seen !! payload_id r |} = true.
Proof.
  intros (wf & _ & Hc)%scan_elem. by apply candidate_Some in Hc as [_ Hu].
Qed.

(** ** Reading the outcome of an iteration *)

Lemma added_app (w : World) (sd : StaticData) (l : list Event) :
  added w {| staticData := sd; events := events w ++ l |} = l.
Proof. unfold added. simpl. by rewrite drop_app_length. Qed.

Lemma buildBatch_Ok (h : Host) (w : World) (b : list Payload) :
  (buildBatch h w).1 = Ok b ↔ Spec.batch newDate cfg h (staticData w) = Some b.
Proof.
  rewrite buildBatch_run.
  destruct (Spec.batch newDate cfg h (staticData w)); simpl; split; congruence.
Qed.

Lemma emissions_detailEvents (b : list Payload) (l : list Event) :
  emissions (detailEvents b ++ l) = emissions l.
Proof.
  unfold Spec.detailEvents. destruct (emitFullWorkflow cfg); [|done].
  induction b as [|r b IH]; [done|]. apply IH.
Qed.

Lemma detailRequests_detailEvents (b : list Payload) :
  detailRequests (detailEvents b)
  = if emitFullWorkflow cfg then payload_id <$> b else [].
Proof.
  unfold Spec.detailEvents. destruct (emitFullWorkflow cfg); [|done].
  unfold detailRequests.
  induction b as [|r b IH]; [done|]. cbn. by rewrite <- IH.
Qed.

(** The three outcomes of an iteration. *)
Lemma step_listing_failed (h : Host) (w : World) :
  Spec.batch newDate cfg h (staticData w) = None →
  Spec.step newDate cfg h w =
  {| staticData := staticData w;
     events := events w
               ++ [EvListRequest; EvError; EvSleep (intervalSeconds cfg * 1000)] |}.
Proof. unfold Spec.step. by intros ->. Qed.

Lemma step_nothing (h : Host) (w : World) :
  Spec.batch newDate cfg h (staticData w) = Some [] →
  Spec.step newDate cfg h w =
  {| staticData := staticData w;
     events := events w ++ [EvListRequest; EvSleep (intervalSeconds cfg * 1000)] |}.
Proof. unfold Spec.step. by intros ->. Qed.

Lemma step_emitted (h : Host) (w : World) (b : list Payload) :
  Spec.batch newDate cfg h (staticData w) = Some b → b ≠ [] →
  Spec.step newDate cfg h w =
  {| staticData := Spec.stored (nowIso h) b (staticData w);
     events := events w ++ EvListRequest :: detailEvents b
               ++ [EvEmit b; EvSleep (intervalSeconds cfg * 1000)] |}.
Proof. unfold Spec.step. intros -> Hb. by destruct b. Qed.

(** ** The stored watermarks *)

Lemma filter_none {A} (P : A → Prop) `{!∀ x, Decision (P x)} (l : list A) :
  (∀ x, x ∈ l → ¬ P x) → filter P l = [].
Proof.
  induction l as [|x l IH]; intros Hl; [done|].
  rewrite filter_cons_False by (apply Hl; left).
  apply IH. intros y Hy. apply Hl. by right.
Qed.

Lemma stored_snoc (now : string) (b : list Payload) (r : Payload) (sd : StaticData) :
  Spec.stored now (b ++ [r]) sd = Spec.store r (Spec.stored now b sd).
Proof. unfold Spec.stored. by rewrite foldl_app. Qed.

Lemma stored_lastSync (now : string) (b : list Payload) (sd : StaticData) :
  lastSync (Spec.stored now b sd) = now.
Proof.
  induction b as [|r b IH] using rev_ind; [done|]. by rewrite stored_snoc.
Qed.

(** The entry for [i] is the timestamp of the last record of the batch that
    carries [i]; entries of other identifiers are kept. *)
Lemma stored_seenMap (now : string) (b : list Payload) (sd : StaticData) (i : string) :
  seenMap (Spec.stored now b sd) !! i =
  match last (filter (λ r, payload_id r = i) b) with
  | Some r => payload_updatedAt r
  | None => seenMap sd !! i
  end.
Proof.
  induction b as [|r b IH] using rev_ind; [done|].
  rewrite stored_snoc, filter_app. unfold Spec.store at 1. simpl.
  rewrite filter_cons, filter_nil.
  destruct (decide (payload_id r = i)) as [<-|Hne].
  - rewrite last_snoc.
    destruct (payload_updatedAt r); [apply lookup_insert_eq | apply lookup_delete_eq].
  - rewrite app_nil_r, <- IH.
    destruct (payload_updatedAt r);
      [by apply lookup_insert_ne | by apply lookup_delete_ne].
Qed.

Lemma stored_seenMap_NoDup (now : string) (b : list Payload) (sd : StaticData)
    (r : Payload) :
  NoDup (payload_id <$> b) → r ∈ b →
  seenMap (Spec.stored now b sd) !! payload_id r = payload_updatedAt r.
Proof.
  intros Hnd Hr. rewrite stored_seenMap.
  apply list_elem_of_split in Hr as (b1 & b2 & ->).
  rewrite fmap_app, fmap_cons in Hnd.
  apply NoDup_app in Hnd as (_ & Hdisj & Hnd2). apply NoDup_cons in Hnd2 as [Hnot _].
  rewrite filter_app, filter_cons, decide_True by done.
  replace (filter (λ r0, payload_id r0 = payload_id r) b2) with (@nil Payload).
  - by rewrite last_snoc.
  - symmetry. apply filter_none. intros x Hx Heq. apply Hnot.
    rewrite <- Heq. by apply list_elem_of_fmap_2.
Qed.

Lemma stored_seenMap_other (now : string) (b : list Payload) (sd : StaticData)
    (i : string) :
  i ∉ payload_id <$> b →
  seenMap (Spec.stored now b sd) !! i = seenMap sd !! i.
Proof.
  intros Hi. rewrite stored_seenMap.
  replace (filter (λ r, payload_id r = i) b) with (@nil Payload); [done|].
  symmetry. apply filter_none. intros x Hx Heq. apply Hi.
  rewrite <- Heq. by apply list_elem_of_fmap_2.
Qed.

(** ** The cap *)

Lemma scan_host_ext (h h' : Host) (ls : string) (seen : gmap string string)
    (items : list (option Workflow)) (k : nat) :
  detailResponse h' = detailResponse h →
  scan h' ls seen items k = scan h ls seen items k.
Proof.
  intros Hd. revert k. induction items as [|wf rest IH]; intros k; simpl; [done|].
  destruct (candidate ls seen wf); [|done]. by rewrite Hd, IH.
Qed.

(** Once the cap is reached, the rest of the listing is not looked at. *)
Lemma scan_stops (h : Host) (ls : string) (seen : gmap string string)
    (items1 items2 : list (option Workflow)) (k n : nat) :
  Spec.cap cfg = Some n → (k < n)%nat →
  (n - k ≤ length (omap (candidate ls seen) items1))%nat →
  scan h ls seen (items1 ++ items2) k = scan h ls seen items1 k.
Proof.
  intros Hcap. revert k. induction items1 as [|wf rest IH]; intros k Hk Hlen; simpl in *.
  - lia.
  - destruct (candidate ls seen wf) as [p|]; [|by apply IH].
    f_equal. rewrite cap_test, Hcap. case_bool_decide; [done|].
    change (list_omap _ _ ?f ?l) with (omap f l) in Hlen.
    apply IH; simpl in Hlen; lia.
Qed.

Lemma length_capped {A} (l : list A) (n : nat) :
  Spec.cap cfg = Some n → (length (capped l) ≤ n)%nat.
Proof. unfold Spec.capped. intros ->. rewrite length_take. lia. Qed.

Lemma batch_cores (h : Host) (sd : StaticData) (body : ListBody) :
  listResponse h = Some body →
  ∃ b, Spec.batch newDate cfg h sd = Some b
       ∧ strip <$> b = capped (qualifying sd (entries body)).
Proof.
  intros Hl. unfold Spec.batch. rewrite Hl. simpl. eexists. split; [done|].
  rewrite scan_cores.
  - unfold Spec.capped, Spec.qualifying.
    destruct (Spec.cap cfg); by rewrite ?Nat.sub_0_r.
  - intros n Hn. by apply cap_positive.
Qed.

Lemma omap_cons_Some {A B} (f : A → option B) (x : A) (l : list A) (y : B) :
  f x = Some y → omap f (x :: l) = y :: omap f l.
Proof. intros Hy. simpl. by rewrite Hy. Qed.

(** The position of a qualifying entry among the qualifying ones. *)
Lemma omap_lookup_index {A B} (f : A → option B) (l : list A) (j : nat) (x : A) (y : B) :
  l !! j = Some x → f x = Some y →
  omap f l !! length (omap f (take j l)) = Some y.
Proof.
  intros Hj Hy.
  assert (omap f l = omap f (take j l) ++ y :: omap f (drop (S j) l)) as ->.
  { trans (omap f (take j l ++ x :: drop (S j) l)).
    - by rewrite take_drop_middle.
    - rewrite omap_app. simpl. by rewrite Hy. }
  by rewrite lookup_app_r, Nat.sub_diag by lia.
Qed.

(** A qualifying entry that the scan reaches before the cap ends it is a
    record of the batch, at the position it has among the qualifying
    entries. *)
Lemma batch_lookup (h : Host) (sd : StaticData) (body : ListBody) (j : nat)
    (wf : option Workflow) (c : Payload) :
  listResponse h = Some body →
  entries body !! j = Some wf →
  candidate (lastSync sd) (seenMap sd) wf = Some c →
  (∀ n, Spec.cap cfg = Some n →
        (length (qualifying sd (take (S j) (entries body))) ≤ n)%nat) →
  ∃ b r, Spec.batch newDate cfg h sd = Some b
         ∧ b !! length (qualifying sd (take j (entries body))) = Some r
         ∧ strip r = c
         ∧ payload_workflow r
           = enrichment (detailResponse h (length (qualifying sd (take j (entries body))))
                           (payload_id r)).
Proof.
  intros Hl Hj Hc Hroom.
  destruct (batch_cores h sd body Hl) as (b & Hb & Hcores).
  pose proof (omap_lookup_index _ _ _ _ _ Hj Hc) as Hq.
  assert (Hs : (strip <$> b) !! length (qualifying sd (take j (entries body))) = Some c).
  { rewrite Hcores. unfold Spec.capped.
    destruct (Spec.cap cfg) as [n|] eqn:Hcap; [|done].
    rewrite lookup_take_lt; [done|]. specialize (Hroom n eq_refl).
    unfold Spec.qualifying in *.
    rewrite (take_S_r _ _ _ Hj), omap_app, length_app in Hroom.
    rewrite (omap_cons_Some _ _ _ _ Hc) in Hroom. simpl in Hroom. lia. }
  apply list_lookup_fmap_Some in Hs as (r & Hr & Hbr).
  exists b, r. split; [done|]. split; [done|]. split; [done|].
  unfold Spec.batch in Hb. rewrite Hl in Hb. injection Hb as <-.
  by apply scan_workflow in Hbr.
Qed.

(** A non-empty batch is handed to the sink, once. *)
Lemma emitted_once (h : Host) (w : World) (b : list Payload) :
  Spec.batch newDate cfg h (staticData w) = Some b → b ≠ [] →
  emissions (added w (iteration h w).2) = [b].
Proof.
  intros Hb Hne. rewrite iteration_run. simpl.
  rewrite (step_emitted _ _ _ Hb Hne), added_app.
  change (emissions (EvListRequest :: ?l)) with (emissions l).
  by rewrite emissions_detailEvents.
Qed.

(** ** The properties of one cycle *)

(** C6. When the listing request fails, the body of the cycle throws, the
    iteration still returns normally, nothing is emitted, the watermark state
    is what it was, the error is logged, the sleep happens and the loop goes
    on with the next iteration. *)
Theorem listing_failure_skips_cycle (h : Host) (hosts : list Host) (w : World) :
  listResponse h = None →
  let w' := (iteration h w).2 in
  (cycleBody h w).1 = Throw
  ∧ (iteration h w).1 = Ok tt
  ∧ emissions (added w w') = []
  ∧ staticData w' = staticData w
  ∧ added w w' = [EvListRequest; EvError; EvSleep (intervalSeconds cfg * 1000)]
  ∧ loop (h :: hosts) w = loop hosts w'.
Proof.
  intros Hfail.
  assert (Hb : Spec.batch newDate cfg h (staticData w) = None)
    by (unfold Spec.batch; by rewrite Hfail).
  cbv zeta. repeat split.
  - unfold Node.cycleBody, mbind, M_bind. rewrite buildBatch_run. by rewrite Hb.
  - by rewrite iteration_run.
  - rewrite iteration_run. simpl. rewrite (step_listing_failed _ _ Hb).
    by rewrite added_app.
  - rewrite iteration_run. simpl. by rewrite (step_listing_failed _ _ Hb).
  - rewrite iteration_run. simpl. rewrite (step_listing_failed _ _ Hb).
    by rewrite added_app.
  - simpl. unfold mbind, M_bind. by rewrite iteration_run.
Qed.

(** C5. When the batch built by the cycle is empty, the emission sink is not
    called and the watermark state ([lastSync] and the whole [seenMap]) is
    what it was before the cycle. *)
Theorem empty_batch_leaves_watermarks (h : Host) (w : World) :
  (buildBatch h w).1 = Ok [] →
  let w' := (iteration h w).2 in
  (iteration h w).1 = Ok tt
  ∧ emissions (added w w') = []
  ∧ staticData w' = staticData w.
Proof.
  intros Hb%buildBatch_Ok. cbv zeta. rewrite iteration_run. simpl.
  rewrite (step_nothing _ _ Hb). by rewrite added_app.
Qed.

(** The batch is empty exactly when the listing was answered and none of its
    entries qualifies. *)
Lemma empty_batch_iff (h : Host) (w : World) :
  (buildBatch h w).1 = Ok [] ↔
  ∃ body, listResponse h = Some body
          ∧ qualifying (staticData w) (entries body) = [].
Proof.
  rewrite buildBatch_Ok. unfold Spec.batch, Spec.qualifying.
  destruct (listResponse h) as [body|]; simpl.
  - pose proof (scan_cores h (lastSync (staticData w)) (seenMap (staticData w))
                  (entries body) 0) as Hc.
    split.
    + intros [= Hs]. exists body. split; [done|].
      rewrite Hs in Hc. simpl in Hc.
      destruct (Spec.cap cfg) as [n|] eqn:Hcap.
      * pose proof (cap_positive _ Hcap).
        specialize (Hc ltac:(intros ? [= <-]; lia)).
        destruct (omap _ (entries body)); [done|].
        destruct n; [lia|]. simpl in Hc. done.
      * symmetry. apply Hc. by intros.
    + intros (body' & [= <-] & Hq). f_equal.
      destruct (Spec.cap cfg) as [n|] eqn:Hcap.
      * pose proof (cap_positive _ Hcap).
        specialize (Hc ltac:(intros ? [= <-]; lia)).
        rewrite Hq, take_nil in Hc. by apply fmap_nil_inv in Hc.
      * specialize (Hc ltac:(done)). rewrite Hq in Hc. by apply fmap_nil_inv in Hc.
  - split; [done|]. by intros (? & ? & _).
Qed.

(** C4, as the code has it. After a cycle whose batch [b] is not empty, [b]
    is the one batch handed to the sink, [lastSync] is the wall-clock string
    read at emission, every record of [b] has an [updatedAt], and [seenMap]
    maps each identifier of [b] to the [updatedAt] of the last record of [b]
    carrying it: the record's own [updatedAt] when the identifiers of [b] are
    distinct. The entries of identifiers outside [b] are unchanged. *)
Theorem emission_stores_watermarks (h : Host) (w : World) (b : list Payload) :
  (buildBatch h w).1 = Ok b → b ≠ [] →
  let w' := (iteration h w).2 in
  emissions (added w w') = [b]
  ∧ lastSync (staticData w') = nowIso h
  ∧ (∀ r, r ∈ b → is_Some (payload_updatedAt r))
  ∧ (∀ i, seenMap (staticData w') !! i =
          match last (filter (λ r, payload_id r = i) b) with
          | Some r => payload_updatedAt r
          | None => seenMap (staticData w) !! i
          end)
  ∧ (NoDup (payload_id <$> b) →
     ∀ r, r ∈ b → seenMap (staticData w') !! payload_id r = payload_updatedAt r)
  ∧ (∀ i, i ∉ payload_id <$> b →
          seenMap (staticData w') !! i = seenMap (staticData w) !! i).
Proof.
  intros Hb%buildBatch_Ok Hne. cbv zeta. rewrite iteration_run. simpl.
  rewrite (step_emitted _ _ _ Hb Hne). simpl. repeat split.
  - rewrite added_app.
    change (emissions (EvListRequest :: ?l)) with (emissions l).
    by rewrite emissions_detailEvents.
  - apply stored_lastSync.
  - intros r Hr. unfold Spec.batch in Hb.
    destruct (listResponse h) as [body|]; [|done]. injection Hb as <-.
    apply scan_updatedAt in Hr as (u & -> & _). by eexists.
  - intros i. apply stored_seenMap.
  - intros Hnd r Hr. by apply stored_seenMap_NoDup.
  - intros i Hi. by apply stored_seenMap_other.
Qed.

(** C8, as the code has it. With a strictly positive [maxPerCycle] the scan
    stops as soon as the length of the batch reaches it: the batch is made of
    the first qualifying entries, as many as the least whole number that is
    not below [maxPerCycle]. So the batch has fewer than [maxPerCycle + 1]
    records, and at most [maxPerCycle] of them when [maxPerCycle] is a whole
    number; once the length has reached [maxPerCycle] the rest of the listing
    plays no part in the iteration. With [maxPerCycle] zero or negative every
    qualifying entry of the listing is in the batch. *)
Theorem batch_respects_cap (h : Host) (w : World) (body : ListBody) :
  listResponse h = Some body →
  ∃ b, (buildBatch h w).1 = Ok b
    ∧ ((0 < maxPerCycle cfg)%Q →
         Z.of_nat (length b) ≤ Qceiling (maxPerCycle cfg)
         ∧ (inject_Z (Z.of_nat (length b)) < maxPerCycle cfg + 1)%Q
         ∧ (∀ m : Z, (maxPerCycle cfg == inject_Z m)%Q → Z.of_nat (length b) ≤ m)
         ∧ strip <$> b = take (Z.to_nat (Qceiling (maxPerCycle cfg)))
                              (qualifying (staticData w) (entries body))
         ∧ ∀ items1 items2, entries body = items1 ++ items2 →
             (maxPerCycle cfg
              <= inject_Z (Z.of_nat (length (qualifying (staticData w) items1))))%Q →
             iteration h w = iteration (withListing h items1) w)
    ∧ ((maxPerCycle cfg <= 0)%Q →
         strip <$> b = qualifying (staticData w) (entries body)).
Proof.
  intros Hl. destruct (batch_cores h (staticData w) body Hl) as (b & Hb & Hcores).
  exists b. split; [by apply buildBatch_Ok|]. split.
  - intros Hpos.
    pose proof (positive_Qlt _ Hpos) as Hp.
    assert (Hcap : Spec.cap cfg = Some (Z.to_nat (Qceiling (maxPerCycle cfg))))
      by (unfold Spec.cap; by rewrite Hp).
    apply positive_ceiling in Hp.
    assert (Hlen : Z.of_nat (length b) ≤ Qceiling (maxPerCycle cfg)).
    { pose proof (length_capped (qualifying (staticData w) (entries body)) _ Hcap) as Hlen.
      rewrite <- Hcores, length_fmap in Hlen. lia. }
    split; [done|]. split; [|split; [|split]].
    + by apply below_ceiling.
    + intros m Hm. rewrite (Qceiling_comp _ _ Hm), Qceiling_Z in Hlen. done.
    + rewrite Hcores. unfold Spec.capped. by rewrite Hcap.
    + intros items1 items2 Hsplit Hfull.
      rewrite !iteration_run. f_equal. unfold Spec.step.
      assert (Spec.batch newDate cfg (withListing h items1) (staticData w)
              = Spec.batch newDate cfg h (staticData w)) as ->; [|done].
      unfold Spec.batch. rewrite Hl. simpl. f_equal. rewrite Hsplit.
      rewrite scan_stops with (n := Z.to_nat (Qceiling (maxPerCycle cfg)));
        [|done|lia|].
      * by apply scan_host_ext.
      * apply Qceiling_le in Hfull. unfold Spec.qualifying in Hfull. lia.
  - intros Hnone. rewrite Hcores. unfold Spec.capped, Spec.cap.
    by rewrite (positive_Qle _ Hnone).
Qed.

(** C7. A listed entry that is not skipped, for which the decision function
    returns [true], which the scan reaches before the cap ends it, and whose
    detail request fails, is a record of the batch: at the position it has
    among the qualifying entries, with its identifier, its name and its
    [updatedAt], and without the [workflow] field; and that batch is handed
    to the sink. The failure touches no other record: which entries are
    emitted, with which identifier, name and [updatedAt], does not depend on
    any detail answer, and had this one request been answered, every other
    record of the batch would be the same. *)
Theorem detail_failure_keeps_record (h : Host) (w : World) (body : ListBody)
    (j : nat) (wf : Workflow) (rawId : WorkflowId) :
  listResponse h = Some body →
  entries body !! j = Some (Some wf) →
  id wf = Some rawId →
  excluded cfg (displayName (String_ rawId) wf) = false →
  decision newDate (updatedAtOf wf) (lastSync (staticData w))
    (Js.get (seenMap (staticData w)) (String_ rawId)) = true →
  (∀ n, Spec.cap cfg = Some n →
        (length (qualifying (staticData w) (take (S j) (entries body))) ≤ n)%nat) →
  detailResponse h (length (qualifying (staticData w) (take j (entries body))))
    (String_ rawId) = None →
  ∃ b, (buildBatch h w).1 = Ok b
    ∧ b !! length (qualifying (staticData w) (take j (entries body)))
      = Some {| payload_id := String_ rawId;
                payload_name := displayName (String_ rawId) wf;
                payload_updatedAt := updatedAtOf wf;
                payload_workflow := None |}
    ∧ is_Some (updatedAtOf wf)
    ∧ emissions (added w (iteration h w).2) = [b]
    ∧ (∀ k r, b !! k = Some r → detailResponse h k (payload_id r) = None →
              payload_workflow r = None)
    ∧ (∀ h', listResponse h' = listResponse h →
             ∃ b', (buildBatch h' w).1 = Ok b' ∧ strip <$> b' = strip <$> b)
    ∧ (∀ h', listResponse h' = listResponse h →
             (∀ k i, k ≠ length (qualifying (staticData w) (take j (entries body))) →
                     detailResponse h' k i = detailResponse h k i) →
             ∃ b', (buildBatch h' w).1 = Ok b'
                   ∧ ∀ k, k ≠ length (qualifying (staticData w) (take j (entries body))) →
                          b' !! k = b !! k).
Proof.
  intros Hl Hj Hid Hex Hdec Hroom Hfail.
  set (c := {| payload_id := String_ rawId;
               payload_name := displayName (String_ rawId) wf;
               payload_updatedAt := updatedAtOf wf;
               payload_workflow := None |}).
  assert (Hc : candidate (lastSync (staticData w)) (seenMap (staticData w)) (Some wf)
               = Some c).
  { unfold Spec.candidate. rewrite Hid. unfold displayName in Hex.
    rewrite Hex. unfold updatedAtOf in Hdec. by rewrite Hdec. }
  destruct (batch_lookup h (staticData w) body j _ c Hl Hj Hc Hroom)
    as (b & r & Hb & Hr & Hstrip & Hwf).
  assert (Hrc : r = c).
  { pose proof (f_equal payload_id Hstrip) as Hri. simpl in Hri.
    rewrite Hri, Hfail in Hwf.
    assert (Hnone : payload_workflow r = None)
      by (rewrite Hwf; unfold Spec.enrichment; by destruct (emitFullWorkflow cfg)).
    rewrite <- Hstrip. destruct r as [ri rn ru rw]. simpl in Hnone. by subst rw. }
  exists b. split; [by apply buildBatch_Ok|].
  split; [by rewrite <- Hrc|].
  split. { pose proof (candidate_Some _ _ _ _ Hc) as (_ & u & Hu & _). by exists u. }
  split. { apply (emitted_once h w b Hb). intros ->. by rewrite lookup_nil in Hr. }
  split.
  { intros k r' Hr' Hnone. unfold Spec.batch in Hb. rewrite Hl in Hb.
    injection Hb as <-. apply scan_workflow in Hr'. rewrite Hr'. simpl.
    rewrite Hnone. unfold Spec.enrichment. by destruct (emitFullWorkflow cfg). }
  assert (Hcores : ∀ h', listResponse h' = listResponse h →
            ∃ b', Spec.batch newDate cfg h' (staticData w) = Some b'
                  ∧ strip <$> b' = strip <$> b).
  { intros h' Hl'. rewrite Hl in Hl'.
    destruct (batch_cores h' (staticData w) body Hl') as (b' & Hb' & Hc').
    exists b'. split; [done|].
    destruct (batch_cores h (staticData w) body Hl) as (b0 & Hb0 & Hc0).
    rewrite Hb in Hb0. injection Hb0 as <-. by rewrite Hc', Hc0. }
  split.
  - intros h' Hl'. destruct (Hcores h' Hl') as (b' & Hb' & Hc').
    exists b'. split; [by apply buildBatch_Ok|done].
  - intros h' Hl' Hsame. destruct (Hcores h' Hl') as (b' & Hb' & Hc').
    exists b'. split; [by apply buildBatch_Ok|]. intros k Hk.
    pose proof (f_equal (λ l, l !! k) Hc') as Hk'. simpl in Hk'.
    rewrite !list_lookup_fmap in Hk'.
    unfold Spec.batch in Hb, Hb'. rewrite Hl in Hb. rewrite Hl', Hl in Hb'.
    injection Hb as <-. injection Hb' as <-.
    destruct (Spec.scan newDate cfg h' _ _ _ _ !! k) as [r1|] eqn:H1;
      destruct (Spec.scan newDate cfg h _ _ _ _ !! k) as [r2|] eqn:H2;
      simpl in Hk'; try done.
    apply scan_workflow in H1, H2. simpl in H1, H2.
    apply (inj Some) in Hk'. f_equal.
    destruct r1 as [i1 n1 u1 w1], r2 as [i2 n2 u2 w2].
    unfold strip, withWorkflow in Hk'. simpl in *.
    injection Hk' as -> -> ->. f_equal. by rewrite H1, H2, Hsame.
Qed.




(** ** Runs of several iterations *)

Lemma worlds_head (hosts : list Host) (w : World) : worlds newDate cfg hosts w !! 0%nat = Some w.
Proof. by destruct hosts. Qed.

Lemma worlds_last (hosts : list Host) (w : World) :
  last (worlds newDate cfg hosts w) = Some (loop hosts w).2.
Proof.
  rewrite loop_run. simpl. revert w.
  induction hosts as [|h hosts IH]; intros w; [done|].
  cbn [worlds foldl]. rewrite <- IH. by destruct hosts.
Qed.

Lemma step_lastSync (h : Host) (w : World) :
  lastSync (staticData (Spec.step newDate cfg h w)) = lastSync (staticData w)
  ∨ lastSync (staticData (Spec.step newDate cfg h w)) = nowIso h.
Proof.
  unfold Spec.step.
  destruct (Spec.batch newDate cfg h (staticData w)) as [[|r b]|]; simpl; auto.
  right. apply stored_lastSync.
Qed.

Lemma worlds_monotone (hosts : list Host) :
  ∀ (w : World) (t0 : Z) (ts : list Z),
    Spec.watermark newDate (Some (lastSync (staticData w))) = Some t0 →
    Forall2 (λ h t, Spec.watermark newDate (Some (nowIso h)) = Some t) hosts ts →
    StronglySorted Z.le (t0 :: ts) →
    ∀ i w1 w2,
      worlds newDate cfg hosts w !! i = Some w1 →
      worlds newDate cfg hosts w !! S i = Some w2 →
      ∃ a b, Spec.watermark newDate (Some (lastSync (staticData w1))) = Some a
             ∧ Spec.watermark newDate (Some (lastSync (staticData w2))) = Some b
             ∧ a ≤ b.
Proof.
  induction hosts as [|h hosts IH]; intros w t0 ts Hw Hclock Hsorted i w1 w2 H1 H2.
  - by destruct i.
  - apply Forall2_cons_inv_l in Hclock as (t1 & ts' & Ht1 & Hclock & ->).
    apply StronglySorted_inv in Hsorted as [Hsorted Hall].
    apply Forall_cons in Hall as [Hle Hall].
    cbn [worlds] in H1, H2.
    assert (Hnext : ∃ t, Spec.watermark newDate
                           (Some (lastSync (staticData (Spec.step newDate cfg h w))))
                         = Some t
                         ∧ t0 ≤ t ∧ StronglySorted Z.le (t :: ts')).
    { destruct (step_lastSync h w) as [-> | ->].
      - exists t0. split; [done|]. split; [lia|].
        apply StronglySorted_inv in Hsorted as [Hs' _]. by constructor.
      - exists t1. by split. }
    destruct Hnext as (t & Ht & Hle' & Hsorted').
    destruct i as [|i].
    + simpl in H1, H2. rewrite worlds_head in H2.
      injection H1 as <-. injection H2 as <-. by exists t0, t.
    + simpl in H1, H2. by eapply (IH _ t ts').
Qed.

(** C9. Along a run whose wall clock does not go backwards (the time stored
    as [lastSync] at the start and the clock readings of the iterations are
    in non-decreasing order), every iteration returns, it either keeps
    [lastSync] or replaces it with the wall-clock string read at emission,
    and the time of [lastSync] after an iteration is not earlier than before
    it. *)
Theorem lastSync_monotone (hosts : list Host) (w : World) (t0 : Z) (ts : list Z) :
  Spec.watermark newDate (Some (lastSync (staticData w))) = Some t0 →
  Forall2 (λ h t, Spec.watermark newDate (Some (nowIso h)) = Some t) hosts ts →
  StronglySorted Z.le (t0 :: ts) →
  (loop hosts w).1 = Ok tt
  ∧ last (worlds newDate cfg hosts w) = Some (loop hosts w).2
  ∧ (∀ h w0, (iteration h w0).1 = Ok tt
             ∧ (lastSync (staticData (iteration h w0).2) = lastSync (staticData w0)
                ∨ lastSync (staticData (iteration h w0).2) = nowIso h))
  ∧ (∀ i w1 w2,
       worlds newDate cfg hosts w !! i = Some w1 →
       worlds newDate cfg hosts w !! S i = Some w2 →
       ∃ h, hosts !! i = Some h ∧ w2 = (iteration h w1).2)
  ∧ (∀ i w1 w2,
       worlds newDate cfg hosts w !! i = Some w1 →
       worlds newDate cfg hosts w !! S i = Some w2 →
       ∃ a b, Spec.watermark newDate (Some (lastSync (staticData w1))) = Some a
              ∧ Spec.watermark newDate (Some (lastSync (staticData w2))) = Some b
              ∧ a ≤ b).
Proof.
  intros Hw Hclock Hsorted. repeat split.
  - by rewrite loop_run.
  - apply worlds_last.
  - by rewrite iteration_run.
  - rewrite iteration_run. apply step_lastSync.
  - clear. revert w. induction hosts as [|h hosts' IH]; intros w i w1 w2 H1 H2.
    + by destruct i.
    + cbn [worlds] in H1, H2. destruct i as [|i].
      * simpl in H1, H2. rewrite worlds_head in H2.
        injection H1 as <-. injection H2 as <-. exists h.
        by rewrite iteration_run.
      * simpl in H1, H2. by apply (IH _ _ _ _ H1 H2).
  - by apply (worlds_monotone hosts w t0 ts).
Qed.

(** ** Two cycles on the same listing *)

(** What a qualifying entry says about its timestamp. *)
Lemma candidate_Some_inv (ls : string) (seen : gmap string string)
    (wf : Workflow) (p : Payload) :
  candidate ls seen (Some wf) = Some p →
  ∃ rawId u t,
    id wf = Some rawId ∧ payload_id p = String_ rawId
    ∧ updatedAtOf wf = Some u ∧ payload_updatedAt p = Some u
    ∧ u ≠ "" ∧ newDate u = Some t
    ∧ (∃ l, Spec.watermark newDate (Some ls) = Some l ∧ l < t)
    ∧ (∃ s, Spec.watermark newDate (seen !! String_ rawId) = Some s ∧ s < t).
Proof.
  unfold Spec.candidate, updatedAtOf.
  destruct (id wf) as [rawId|]; [|done].
  destruct (excluded cfg _); [done|].
  destruct (decision _ _ _ _) eqn:He; [|done]. intros [= <-]. simpl.
  apply decision_true in He as [He _].
  apply (shouldEmit_true newDate) in He as (u & t & Hu & Hne & Ht & Hl & Hs).
  simpl in *. exists rawId, u, t. by repeat split.
Qed.

(** An entry that does not qualify although it has an identifier, a name
    that is not excluded and a valid timestamp newer than [lastSync] is held
    back by its [seenMap] entry, or by the inherited member that the read of
    [seenMap] finds. *)
Lemma candidate_None_seen (ls : string) (seen : gmap string string)
    (wf : Workflow) (rawId : WorkflowId) (u : string) (t l : Z) :
  candidate ls seen (Some wf) = None →
  id wf = Some rawId →
  excluded cfg (displayName (String_ rawId) wf) = false →
  updatedAtOf wf = Some u → u ≠ "" → newDate u = Some t →
  Spec.watermark newDate (Some ls) = Some l → l < t →
  Js.gt (Some t) (Spec.watermark newDate (seen !! String_ rawId)) = false
  ∨ Js.get seen (String_ rawId) = Js.ReadInherited.
Proof.
  unfold Spec.candidate, updatedAtOf, displayName.
  intros Hc Hid Hex Hu Hne Ht Hl Hlt. rewrite Hid, Hex, Hu in Hc.
  destruct (decision _ _ _ _) eqn:Hd; [done|].
  destruct (decide (Js.get seen (String_ rawId) = Js.ReadInherited)) as [|Hget];
    [by right|left].
  destruct (Diff.shouldEmit newDate
              {| Diff.updatedAtIso := Some u; Diff.lastSyncIso := Some ls;
                 Diff.seenAtIso := seen !! String_ rawId |}) eqn:He.
  { assert (decision newDate (Some u) ls (Js.get seen (String_ rawId)) = true)
      by (by apply decision_true).
    congruence. }
  rewrite (shouldEmit_unfold newDate) in He. simpl in He.
  rewrite Ht, Hl in He. apply (truthy_Some u) in Hne. simpl in Hne, He.
  rewrite Hne in He. simpl in He.
  replace (Z.ltb l t) with true in He by lia. done.
Qed.

Lemma candidate_excluded (ls : string) (seen : gmap string string)
    (wf : Workflow) (p : Payload) :
  candidate ls seen (Some wf) = Some p →
  ∃ rawId, id wf = Some rawId
           ∧ excluded cfg (displayName (String_ rawId) wf) = false.
Proof.
  unfold Spec.candidate, displayName.
  destruct (id wf) as [rawId|]; [|done].
  destruct (excluded cfg _) eqn:Hex; [done|]. intros _. by exists rawId.
Qed.

Lemma scan_nothing (h : Host) (ls : string) (seen : gmap string string)
    (items : list (option Workflow)) (k : nat) :
  (∀ wf, Some wf ∈ items → candidate ls seen (Some wf) = None) →
  scan h ls seen items k = [].
Proof.
  induction items as [|wf rest IH]; intros Hnone; simpl; [done|].
  assert (candidate ls seen wf = None) as ->.
  { destruct wf as [wf|]; [|done]. apply Hnone. left. }
  apply IH. intros wf' Hwf'. apply Hnone. by right.
Qed.

Lemma shouldEmit_seen_equal (u l : option string) :
  Diff.shouldEmit newDate
    {| Diff.updatedAtIso := u; Diff.lastSyncIso := l; Diff.seenAtIso := u |} = false.
Proof.
  rewrite (shouldEmit_unfold newDate). destruct u as [u|]; simpl; [|done].
  destruct (String.eqb_spec u "") as [->|Hu]; [done|].
  unfold Spec.watermark at 2.
  rewrite (or_else_truthy _ _ Hu), gt_irrefl. by rewrite andb_false_r.
Qed.

(** When no listed timestamp is later than the new [lastSync], the next scan
    of the listing finds nothing. *)
Lemma second_batch_empty_clock (h : Host) (now : string) (seen : gmap string string)
    (items : list (option Workflow)) :
  noneLaterThan newDate now items →
  scan h now seen items 0 = [].
Proof.
  intros Hclock. apply scan_nothing. intros wf Hwf.
  destruct (candidate now seen (Some wf)) as [p|] eqn:Hp; [|done]. exfalso.
  apply candidate_Some_inv in Hp
    as (rawId & u & t & _ & _ & Hu & _ & _ & Ht & (l & Hl & Hlt) & _).
  specialize (Hclock wf u Hwf Hu). rewrite Ht, Hl in Hclock. simpl in Hclock. lia.
Qed.

(** When the first batch had distinct identifiers and held every qualifying
    entry, and the clock was not behind the previous [lastSync], the next
    scan of the listing finds nothing: an emitted entry meets its own
    timestamp in [seenMap], and an entry that was held back still is. *)
Lemma second_batch_empty_seen (h h' : Host) (sd : StaticData) (now : string)
    (items : list (option Workflow)) (b1 : list Payload) :
  b1 = scan h (lastSync sd) (seenMap sd) items 0 →
  NoDup (payload_id <$> b1) →
  strip <$> b1 = qualifying sd items →
  notEarlier newDate (lastSync sd) now →
  scan h' now (seenMap (Spec.stored now b1 sd)) items 0 = [].
Proof.
  intros Hb1 Hnd Hall (t0 & t1 & Ht0 & Ht1 & Hle).
  apply scan_nothing. intros wf Hwf.
  destruct (candidate now _ (Some wf)) as [p|] eqn:Hp; [|done]. exfalso.
  pose proof (candidate_excluded _ _ _ _ Hp) as (rawId' & Hid' & Hex).
  pose proof (candidate_writable _ _ _ _ Hp) as [Hown _].
  apply candidate_Some_inv in Hp
    as (rawId & u & t & Hid & Hpid' & Hu & _ & Hne & Ht & (l & Hl & Hlt) & (s & Hs & Hst)).
  rewrite Hpid' in Hown.
  rewrite Hid in Hid'. injection Hid' as <-.
  rewrite Ht1 in Hl. injection Hl as <-.
  destruct (candidate (lastSync sd) (seenMap sd) (Some wf)) as [c|] eqn:Hc.
  - (* emitted by the first cycle: the stored value is its own timestamp *)
    assert (Hin : c ∈ strip <$> b1).
    { rewrite Hall. unfold Spec.qualifying. apply list_elem_of_omap. eauto. }
    apply list_elem_of_fmap in Hin as (r & -> & Hr).
    apply candidate_Some_inv in Hc
      as (rawId2 & u2 & _ & Hid2 & Hpid & Hu2 & Hpu & _).
    rewrite Hid in Hid2. injection Hid2 as <-. rewrite Hu in Hu2. injection Hu2 as <-.
    simpl in Hpid, Hpu.
    rewrite <- Hpid, (stored_seenMap_NoDup now b1 sd r Hnd Hr), Hpu in Hs.
    unfold Spec.watermark in Hs. rewrite (or_else_truthy _ _ Hne), Ht in Hs.
    injection Hs as <-. lia.
  - (* held back by the first cycle *)
    pose proof (candidate_None_seen _ _ _ _ _ _ _ Hc Hid Hex Hu Hne Ht Ht0
                  ltac:(lia)) as [Hheld|Hhidden].
    2:{ (* hidden by an inherited member: it is not in [b1], and still hidden *)
        destruct (decide (String_ rawId ∈ payload_id <$> b1)) as [Hi|Hi].
        - apply list_elem_of_fmap in Hi as (r' & Hri & Hr').
          rewrite Hb1 in Hr'. apply scan_elem in Hr' as (wf' & _ & Hc').
          apply candidate_writable in Hc' as [Hown' _]. simpl in Hown'.
          by rewrite <- Hri in Hown'.
        - apply get_inherited in Hhidden as [Hnone Hinh]. apply Hown.
          apply get_inherited. by rewrite (stored_seenMap_other _ _ _ _ Hi). }
    destruct (decide (String_ rawId ∈ payload_id <$> b1)) as [Hi|Hi].
    + rewrite stored_seenMap in Hs.
      destruct (last (filter _ b1)) as [r'|] eqn:Hlast.
      * apply last_Some_elem_of, list_elem_of_filter in Hlast as [Hri Hr'].
        rewrite Hb1 in Hr'. apply scan_updatedAt in Hr' as (u' & Hu' & He').
        rewrite Hri in He'.
        apply (shouldEmit_true newDate) in He'
          as (u3 & t' & [= <-] & Hne' & Ht' & _ & (s0 & Hs0 & Hlt0)).
        simpl in Hs0. rewrite Hs0 in Hheld. simpl in Hheld.
        rewrite Hu' in Hs. unfold Spec.watermark in Hs.
        rewrite (or_else_truthy _ _ Hne'), Ht' in Hs. injection Hs as <-. lia.
      * rewrite Hs in Hheld. simpl in Hheld. lia.
    + rewrite (stored_seenMap_other _ _ _ _ Hi) in Hs.
      rewrite Hs in Hheld. simpl in Hheld. lia.
Qed.

(** C2, as the code has it. Let a cycle emit the batch [b1] and a second
    cycle run on the same listing. Then [seenMap] maps every identifier of
    [b1] to the [updatedAt] of the last record of [b1] carrying it (the
    record's own when the identifiers of [b1] are distinct), and a record
    that meets its own [updatedAt] there fails the decision on equality. The
    second cycle emits nothing and leaves the watermark state alone when no
    listed timestamp is later than the wall-clock time stored as [lastSync],
    and also when [b1] had distinct identifiers and held every qualifying
    entry and the wall-clock time was not earlier than the previous
    [lastSync]. *)
Theorem second_cycle_silent (h1 h2 : Host) (w : World) (body : ListBody)
    (b1 : list Payload) :
  listResponse h1 = Some body → listResponse h2 = Some body →
  (buildBatch h1 w).1 = Ok b1 → b1 ≠ [] →
  let w1 := (iteration h1 w).2 in
  (∀ i, i ∈ payload_id <$> b1 →
     ∃ r, last (filter (λ x, payload_id x = i) b1) = Some r
          ∧ seenMap (staticData w1) !! i = payload_updatedAt r)
  ∧ (NoDup (payload_id <$> b1) →
     ∀ r, r ∈ b1 → seenMap (staticData w1) !! payload_id r = payload_updatedAt r)
  ∧ (∀ r l, r ∈ b1 →
       seenMap (staticData w1) !! payload_id r = payload_updatedAt r →
       Diff.shouldEmit newDate
         {| Diff.updatedAtIso := payload_updatedAt r; Diff.lastSyncIso := l;
            Diff.seenAtIso := seenMap (staticData w1) !! payload_id r |} = false)
  ∧ (noneLaterThan newDate (nowIso h1) (entries body)
     ∨ (NoDup (payload_id <$> b1)
        ∧ strip <$> b1 = qualifying (staticData w) (entries body)
        ∧ notEarlier newDate (lastSync (staticData w)) (nowIso h1)) →
     (buildBatch h2 w1).1 = Ok []
     ∧ emissions (added w1 (iteration h2 w1).2) = []
     ∧ staticData (iteration h2 w1).2 = staticData w1).
Proof.
  intros Hl1 Hl2 Hb%buildBatch_Ok Hne. cbv zeta.
  assert (Hw1 : staticData (iteration h1 w).2
                = Spec.stored (nowIso h1) b1 (staticData w)).
  { rewrite iteration_run. simpl. by rewrite (step_emitted _ _ _ Hb Hne). }
  destruct (iteration h1 w) as [res w1]. simpl in *.
  split; [|split; [|split]].
  - intros i Hi. rewrite Hw1, stored_seenMap.
    destruct (last (filter _ b1)) as [r|] eqn:Hlast; [by exists r|].
    apply last_None in Hlast. apply list_elem_of_fmap in Hi as (r & -> & Hr).
    by apply (filter_nil_not_elem_of _ _ r) in Hlast.
  - intros Hnd r Hr. rewrite Hw1. by apply stored_seenMap_NoDup.
  - intros r l Hr ->. apply shouldEmit_seen_equal.
  - intros Hquiet.
    assert (Hnone : Spec.batch newDate cfg h2 (staticData w1) = Some []).
    { unfold Spec.batch in *. rewrite Hl2. rewrite Hl1 in Hb. simpl in *. f_equal.
      injection Hb as Hb. rewrite Hw1, stored_lastSync.
      destruct Hquiet as [Hclock | (Hnd & Hall & Hnow)].
      + by apply second_batch_empty_clock.
      + by apply (second_batch_empty_seen h1). }
    split; [by apply buildBatch_Ok|].
    rewrite iteration_run. simpl. rewrite (step_nothing _ _ Hnone).
    by rewrite added_app.
Qed.

(** ** Further properties of the cycle *)

Lemma candidate_name (ls : string) (seen : gmap string string)
    (wf : option Workflow) (p : Payload) :
  candidate ls seen wf = Some p → excluded cfg (payload_name p) = false.
Proof.
  unfold Spec.candidate. destruct wf as [wf|]; [|done].
  destruct (id wf) as [rawId|]; [|done].
  destruct (excluded cfg _) eqn:Hex; [done|].
  destruct (decision _ _ _ _); [|done]. by intros [= <-].
Qed.

Lemma batch_elem (h : Host) (sd : StaticData) (b : list Payload) (r : Payload) :
  Spec.batch newDate cfg h sd = Some b → r ∈ b →
  ∃ body wf, listResponse h = Some body ∧ wf ∈ entries body
             ∧ candidate (lastSync sd) (seenMap sd) wf = Some (strip r).
Proof.
  unfold Spec.batch. destruct (listResponse h) as [body|]; [|done].
  intros [= <-] (wf & Hwf & Hc)%scan_elem. by exists body, wf.
Qed.

(** X1. Every emitted record is strictly newer than both watermarks as they
    stood when the cycle started. *)
Theorem emitted_is_newer (h : Host) (w : World) (b : list Payload) (r : Payload) :
  (buildBatch h w).1 = Ok b → r ∈ b →
  ∃ u t l s,
    payload_updatedAt r = Some u ∧ newDate u = Some t
    ∧ Spec.watermark newDate (Some (lastSync (staticData w))) = Some l ∧ l < t
    ∧ Spec.watermark newDate (seenMap (staticData w) !! payload_id r) = Some s ∧ s < t.
Proof.
  intros Hb%buildBatch_Ok Hr. unfold Spec.batch in Hb.
  destruct (listResponse h) as [body|]; [|done]. injection Hb as <-.
  apply scan_updatedAt in Hr as (u & Hu & He).
  apply (shouldEmit_true newDate) in He
    as (u' & t & [= <-] & _ & Ht & (l & Hl & Hlt) & (s & Hs & Hst)).
  simpl in *. by exists u, t, l, s.
Qed.


(** X3. No record of a batch carries a name that the exclusion pattern
    matches. *)
Theorem excluded_name_not_emitted (h : Host) (w : World) (b : list Payload)
    (r : Payload) :
  (buildBatch h w).1 = Ok b → r ∈ b → excluded cfg (payload_name r) = false.
Proof.
  intros Hb%buildBatch_Ok Hr.
  destruct (batch_elem _ _ _ _ Hb Hr) as (body & wf & _ & _ & Hc).
  by apply candidate_name in Hc.
Qed.

(** X4. An iteration never removes an entry of [seenMap]. *)
Theorem seenMap_keeps_entries (h : Host) (w : World) (i : string) :
  is_Some (seenMap (staticData w) !! i) →
  is_Some (seenMap (staticData (iteration h w).2) !! i).
Proof.
  intros Hi. rewrite iteration_run. simpl. unfold Spec.step.
  destruct (Spec.batch newDate cfg h (staticData w)) as [[|r0 b]|] eqn:Hb;
    simpl; try done.
  rewrite stored_seenMap.
  destruct (last (filter _ (r0 :: b))) as [r|] eqn:Hlast; [|done].
  apply last_Some_elem_of, list_elem_of_filter in Hlast as [_ Hr].
  unfold Spec.batch in Hb. destruct (listResponse h) as [body|]; [|done].
  injection Hb as Hb. rewrite <- Hb in Hr.
  apply scan_updatedAt in Hr as (u & -> & _). by eexists.
Qed.

End NodeFacts.

(** * Further properties of the decision function *)

Section DiffMore.

Variable newDate : string → Js.Date.

Local Abbreviation watermark := (Spec.watermark newDate).
Local Abbreviation shouldEmit := (Diff.shouldEmit newDate).

(** X5. The decision depends on its arguments through their parsed times
    only, and it is monotone: a positive decision stays positive when the
    update time is replaced by one that is not earlier and the watermarks by
    ones that are not later. *)
Theorem shouldEmit_monotone (p p' : Diff.Params) (u u' : string) (t t' l l' s s' : Z) :
  Diff.updatedAtIso p = Some u → newDate u = Some t →
  Diff.updatedAtIso p' = Some u' → u' ≠ "" → newDate u' = Some t' → t ≤ t' →
  watermark (Diff.lastSyncIso p) = Some l →
  watermark (Diff.lastSyncIso p') = Some l' → l' ≤ l →
  watermark (Diff.seenAtIso p) = Some s →
  watermark (Diff.seenAtIso p') = Some s' → s' ≤ s →
  shouldEmit p = true → shouldEmit p' = true.
Proof.
  intros Hu Ht Hu' Hne Ht' Hle Hl Hl' Hlle Hs Hs' Hsle He.
  apply (shouldEmit_true newDate) in He
    as (u0 & t0 & Hu0 & _ & Ht0 & (l0 & Hl0 & Hlt) & (s0 & Hs0 & Hst)).
  rewrite Hu in Hu0. injection Hu0 as <-. rewrite Ht in Ht0. injection Ht0 as <-.
  rewrite Hl in Hl0. injection Hl0 as <-. rewrite Hs in Hs0. injection Hs0 as <-.
  apply (shouldEmit_true newDate). exists u', t'.
  repeat split; try done.
  - exists l'. split; [done | lia].
  - exists s'. split; [done | lia].
Qed.

End DiffMore.

(** * Further properties of the scan *)

Section ScanMore.

Import Node Spec.

Variable newDate : string → Js.Date.
Variable cfg : Config.

Local Abbreviation candidate := (Spec.candidate newDate cfg).
Local Abbreviation scan := (Spec.scan newDate cfg).
Local Abbreviation qualifying := (Spec.qualifying newDate cfg).
Local Abbreviation forOf := (Node.forOf newDate cfg).
Local Abbreviation buildBatch := (Node.buildBatch newDate cfg).
Local Abbreviation iteration := (Node.iteration newDate cfg).
Local Abbreviation loop := (Node.loop newDate cfg).

(** X6. An entry whose camel-case [updatedAt] is present but empty or not a
    date is passed over by the scan, whatever its snake-case [updated_at]
    holds: the fallback is taken only when [updatedAt] is absent. *)
Theorem unusable_updatedAt_skipped (h : Host) (ls : string) (wf : Workflow)
    (u : string) (rest : list (option Workflow)) (toEmit : list Payload) (w : World) :
  updatedAt wf = Some u → u = "" ∨ newDate u = None →
  forOf h ls (Some wf :: rest) toEmit w = forOf h ls rest toEmit w.
Proof.
  intros Hu Hbad. simpl.
  destruct (id wf) as [rawId|]; [|done].
  destruct (excluded cfg _); [done|].
  unfold mbind at 1, M_bind at 1, gets at 1. simpl.
  destruct (decision _ _ _ _) eqn:Hd; [exfalso|done].
  apply (decision_shouldEmit newDate) in Hd as [s Hd].
  rewrite (shouldEmit_unfold newDate) in Hd. simpl in Hd. rewrite Hu in Hd.
  simpl in Hd. destruct Hbad as [-> | Hnone]; simpl in Hd; [done|].
  rewrite Hnone in Hd. simpl in Hd. by rewrite andb_false_r in Hd.
Qed.

Lemma candidate_fields (ls : string) (seen : gmap string string)
    (wf : option Workflow) (p : Payload) :
  candidate ls seen wf = Some p →
  ∃ wf' rawId,
    wf = Some wf' ∧ id wf' = Some rawId
    ∧ payload_id p = String_ rawId
    ∧ payload_name p = default ("workflow-" +:+ String_ rawId) (name wf')
    ∧ payload_updatedAt p = Js.nullish (updatedAt wf') (updated_at wf').
Proof.
  unfold Spec.candidate. destruct wf as [wf|]; [|done].
  destruct (id wf) as [rawId|] eqn:Hid; [|done].
  destruct (excluded cfg _); [done|].
  destruct (decision _ _ _ _); [|done].
  intros [= <-]. by exists wf, rawId.
Qed.

(** X7. Every record of a batch stems from an entry of the listing: its
    identifier is the entry's, printed as a string, its name is the entry's
    or [workflow-<id>] when the entry has none, and its [updatedAt] is the
    entry's camel-case timestamp or, when that is absent, the snake-case
    one. *)
Theorem record_provenance (h : Host) (w : World) (body : ListBody)
    (b : list Payload) (r : Payload) :
  listResponse h = Some body → (buildBatch h w).1 = Ok b → r ∈ b →
  ∃ wf rawId,
    Some wf ∈ entries body ∧ id wf = Some rawId
    ∧ payload_id r = String_ rawId
    ∧ payload_name r = default ("workflow-" +:+ String_ rawId) (name wf)
    ∧ payload_updatedAt r = Js.nullish (updatedAt wf) (updated_at wf).
Proof.
  intros Hl Hb%(buildBatch_Ok newDate cfg) Hr.
  destruct (batch_elem newDate cfg _ _ _ _ Hb Hr) as (body' & wf & Hl' & Hwf & Hc).
  rewrite Hl in Hl'. injection Hl' as <-.
  apply candidate_fields in Hc as (wf' & rawId & -> & Hid & Hi & Hn & Hu).
  exists wf', rawId. by repeat split.
Qed.

Lemma scan_filter (h : Host) (ls : string) (seen : gmap string string)
    (items : list (option Workflow)) (k : nat) :
  scan h ls seen (filter (λ wf, is_Some (candidate ls seen wf)) items) k
  = scan h ls seen items k.
Proof.
  revert k. induction items as [|wf rest IH]; intros k; [done|].
  rewrite filter_cons. destruct (decide (is_Some (candidate ls seen wf))) as [Hq|Hq].
  - simpl. destruct Hq as [p Hp]. rewrite Hp. by rewrite IH.
  - simpl. destruct (candidate ls seen wf) as [p|] eqn:Hp; [|by apply IH].
    exfalso. apply Hq. by exists p.
Qed.

(** X8. The entries that do not qualify play no part in the cycle: [null]
    entries, entries without an identifier and entries with an excluded name
    never qualify, and removing every non-qualifying entry from the listing
    leaves the whole iteration (requests, emission, stored state) as it
    is. *)
Theorem nonqualifying_entries_have_no_effect (h : Host) (w : World)
    (items : list (option Workflow)) :
  iteration (withListing h items) w
  = iteration
      (withListing h
         (filter (λ wf, is_Some (candidate (lastSync (staticData w))
                                   (seenMap (staticData w)) wf)) items)) w
  ∧ candidate (lastSync (staticData w)) (seenMap (staticData w)) None = None
  ∧ (∀ wf, id wf = None →
       candidate (lastSync (staticData w)) (seenMap (staticData w)) (Some wf) = None)
  ∧ (∀ wf rawId, id wf = Some rawId →
       excluded cfg (default ("workflow-" +:+ String_ rawId) (name wf)) = true →
       candidate (lastSync (staticData w)) (seenMap (staticData w)) (Some wf) = None).
Proof.
  split; [|split; [done|split]].
  - rewrite !(iteration_run newDate cfg). f_equal. unfold Spec.step.
    assert (Spec.batch newDate cfg (withListing h (filter _ items)) (staticData w)
            = Spec.batch newDate cfg (withListing h items) (staticData w)) as ->;
      [|done].
    unfold Spec.batch. simpl. f_equal.
    rewrite (scan_host_ext newDate cfg h (withListing h (filter _ items))) by done.
    rewrite (scan_host_ext newDate cfg h (withListing h items)) by done.
    apply scan_filter.
  - intros wf Hid. unfold Spec.candidate. by rewrite Hid.
  - intros wf rawId Hid Hex. unfold Spec.candidate. by rewrite Hid, Hex.
Qed.

(** X9. An entry with an identifier, a name that is not excluded and a
    timestamp that parses to a time strictly later than both watermarks is
    emitted in this cycle, provided the cap leaves room for it and the read
    of its [seenMap] entry does not find a member inherited from
    [Object.prototype] (its identifier is an own key of [seenMap], or is not
    the name of such a member). *)
Theorem qualifying_entry_emitted (h : Host) (w : World) (body : ListBody)
    (j : nat) (wf : Workflow) (rawId : WorkflowId) (u : string) (t l s : Z) :
  listResponse h = Some body →
  entries body !! j = Some (Some wf) →
  id wf = Some rawId →
  excluded cfg (default ("workflow-" +:+ String_ rawId) (name wf)) = false →
  Js.nullish (updatedAt wf) (updated_at wf) = Some u → u ≠ "" → newDate u = Some t →
  Spec.watermark newDate (Some (lastSync (staticData w))) = Some l → l < t →
  Js.get (seenMap (staticData w)) (String_ rawId) ≠ Js.ReadInherited →
  Spec.watermark newDate (seenMap (staticData w) !! String_ rawId) = Some s → s < t →
  (∀ n, Spec.cap cfg = Some n →
        (length (qualifying (staticData w) (take (S j) (entries body))) ≤ n)%nat) →
  ∃ b k r,
    (buildBatch h w).1 = Ok b ∧ b !! k = Some r
    ∧ emissions (added w (iteration h w).2) = [b]
    ∧ payload_id r = String_ rawId
    ∧ payload_name r = default ("workflow-" +:+ String_ rawId) (name wf)
    ∧ payload_updatedAt r = Some u.
Proof.
  intros Hl Hj Hid Hex Hu Hne Ht Hls Hlt Hown Hs Hst Hroom.
  set (c := {| payload_id := String_ rawId;
               payload_name := default ("workflow-" +:+ String_ rawId) (name wf);
               payload_updatedAt := Some u; payload_workflow := None |}).
  assert (Hc : candidate (lastSync (staticData w)) (seenMap (staticData w)) (Some wf)
               = Some c).
  { unfold Spec.candidate. rewrite Hid, Hex, Hu.
    assert (decision newDate (Some u) (lastSync (staticData w))
              (Js.get (seenMap (staticData w)) (String_ rawId)) = true) as ->; [|done].
    apply (decision_true newDate). split; [|done].
    apply (shouldEmit_true newDate). exists u, t. simpl. eauto 10. }
  destruct (batch_lookup newDate cfg h (staticData w) body j _ c Hl Hj Hc Hroom)
    as (b & r & Hb & Hr & Hstrip & _).
  exists b, (length (qualifying (staticData w) (take j (entries body)))), r.
  split; [by apply (buildBatch_Ok newDate cfg)|]. split; [done|].
  split. { apply (emitted_once newDate cfg h w b Hb). intros ->. by rewrite lookup_nil in Hr. }
  repeat split.
  - by apply (f_equal payload_id) in Hstrip.
  - by apply (f_equal payload_name) in Hstrip.
  - by apply (f_equal payload_updatedAt) in Hstrip.
Qed.

End ScanMore.

(** * Further properties of iterations and runs *)

(** The lookup in the stored map, under a name of its own. *)
Lemma stored_lookup (now : string) (b : list Node.Payload) (sd : Node.StaticData)
    (i : string) :
  Node.seenMap (Spec.stored now b sd) !! i =
  match last (filter (λ r, Node.payload_id r = i) b) with
  | Some r => Node.payload_updatedAt r
  | None => Node.seenMap sd !! i
  end.
Proof. apply stored_seenMap. Qed.

Section RunMore.

Import Node Spec.

Variable newDate : string → Js.Date.
Variable cfg : Config.

Local Abbreviation candidate := (Spec.candidate newDate cfg).
Local Abbreviation scan := (Spec.scan newDate cfg).
Local Abbreviation enrichment := (Spec.enrichment cfg).
Local Abbreviation detailEvents := (Spec.detailEvents cfg).
Local Abbreviation buildBatch := (Node.buildBatch newDate cfg).
Local Abbreviation iteration := (Node.iteration newDate cfg).
Local Abbreviation loop := (Node.loop newDate cfg).
Local Abbreviation step := (Spec.step newDate cfg).
Local Abbreviation batch := (Spec.batch newDate cfg).

Lemma omap_detailEvents {A} (f : Event → option A) (b : list Payload) (l : list Event) :
  (∀ i, f (EvDetailRequest i) = None) →
  omap f (detailEvents b ++ l) = omap f l.
Proof.
  intros Hf. unfold Spec.detailEvents. destruct (emitFullWorkflow cfg); [|done].
  induction b as [|r b IH]; [done|]. cbn. by rewrite Hf.
Qed.

(** The events of one iteration, by outcome. *)
Lemma step_added (h : Host) (w : World) :
  added w (step h w) =
  match batch h (staticData w) with
  | None => [EvListRequest; EvError; EvSleep (intervalSeconds cfg * 1000)]
  | Some [] => [EvListRequest; EvSleep (intervalSeconds cfg * 1000)]
  | Some b => EvListRequest :: detailEvents b
              ++ [EvEmit b; EvSleep (intervalSeconds cfg * 1000)]
  end.
Proof.
  unfold Spec.step.
  destruct (batch h (staticData w)) as [[|r b]|]; by rewrite added_app.
Qed.

(** X10. The detail requests of an iteration are made for records of its
    batch, in the order of the batch and at most one per record: so there are
    no more of them than records, fewer than [maxPerCycle + 1] under a
    positive cap. With [emitFullWorkflow] off the iteration makes none and no
    record has a [workflow] field. *)
Theorem detail_request_accounting (h : Host) (w : World) (b : list Payload) :
  (buildBatch h w).1 = Ok b →
  detailRequests (added w (iteration h w).2) `sublist_of` (payload_id <$> b)
  ∧ ((0 < maxPerCycle cfg)%Q →
     Z.of_nat (length (detailRequests (added w (iteration h w).2)))
     ≤ Qceiling (maxPerCycle cfg)
     ∧ (inject_Z (Z.of_nat (length (detailRequests (added w (iteration h w).2))))
        < maxPerCycle cfg + 1)%Q)
  ∧ (emitFullWorkflow cfg = false →
     detailRequests (added w (iteration h w).2) = []
     ∧ ∀ r, r ∈ b → payload_workflow r = None).
Proof.
  intros Hok. pose proof Hok as Hb%(buildBatch_Ok newDate cfg).
  assert (Hreq : detailRequests (added w (iteration h w).2)
                 = if emitFullWorkflow cfg then payload_id <$> b else []).
  { rewrite (iteration_run newDate cfg). simpl. rewrite step_added, Hb.
    destruct b as [|r b]; [by destruct (emitFullWorkflow cfg)|].
    change (detailRequests (EvListRequest :: ?l)) with (detailRequests l).
    rewrite <- (detailRequests_detailEvents cfg (r :: b)).
    unfold detailRequests. rewrite omap_app. simpl. by rewrite app_nil_r. }
  assert (Hsub : detailRequests (added w (iteration h w).2)
                 `sublist_of` (payload_id <$> b)).
  { rewrite Hreq. destruct (emitFullWorkflow cfg); [done|apply sublist_nil_l]. }
  split; [done|]. split.
  - intros Hpos. apply sublist_length in Hsub. rewrite length_fmap in Hsub.
    assert (Hlen : Z.of_nat (length b) ≤ Qceiling (maxPerCycle cfg)).
    { unfold Spec.batch in Hb. destruct (listResponse h) as [body|] eqn:Hl; [|done].
      destruct (batch_cores newDate cfg h (staticData w) body Hl) as (b' & Hb' & Hc).
      unfold Spec.batch in Hb'. rewrite Hl in Hb'. simpl in Hb', Hb.
      rewrite Hb in Hb'. injection Hb' as <-.
      pose proof (positive_Qlt _ Hpos) as Hp.
      assert (Hcap : Spec.cap cfg = Some (Z.to_nat (Qceiling (maxPerCycle cfg))))
        by (unfold Spec.cap; by rewrite Hp).
      apply positive_ceiling in Hp.
      pose proof (length_capped cfg (Spec.qualifying newDate cfg (staticData w)
                                       (entries body)) _ Hcap) as Hlen.
      rewrite <- Hc, length_fmap in Hlen. lia. }
    split; [lia|]. apply below_ceiling. lia.
  - intros Hoff. split; [by rewrite Hreq, Hoff|].
    intros r Hr. apply list_elem_of_lookup in Hr as [k Hk].
    unfold Spec.batch in Hb. destruct (listResponse h) as [body|]; [|done].
    injection Hb as <-. apply (scan_workflow newDate cfg) in Hk.
    rewrite Hk. unfold Spec.enrichment. by rewrite Hoff.
Qed.

(** X11. The [workflow] field of an emitted record, when it is set, holds a
    truthy value: a detail answer that unwraps to [null], [false], [0] or the
    empty string leaves the field out. *)
Theorem workflow_field_truthy (h : Host) (w : World) (b : list Payload)
    (r : Payload) (d : Js.Json) :
  (buildBatch h w).1 = Ok b → r ∈ b → payload_workflow r = Some d →
  Js.truthyJson d = true ∧ emitFullWorkflow cfg = true.
Proof.
  intros Hb%(buildBatch_Ok newDate cfg) Hr Hd.
  apply list_elem_of_lookup in Hr as [k Hk].
  unfold Spec.batch in Hb. destruct (listResponse h) as [body|]; [|done].
  injection Hb as <-. apply (scan_workflow newDate cfg) in Hk.
  rewrite Hd in Hk. unfold Spec.enrichment in Hk.
  destruct (emitFullWorkflow cfg); [|done].
  destruct (detailResponse h _ _) as [res|]; [|done].
  destruct (Js.truthyJson _) eqn:Ht; [|done]. by injection Hk as ->.
Qed.




(** ** Whole runs *)

Lemma step_events (h : Host) (w : World) :
  events (step h w) = events w ++ added w (step h w).
Proof.
  rewrite step_added. unfold Spec.step.
  by destruct (batch h (staticData w)) as [[|r b]|].
Qed.

Lemma run_events (hosts : list Host) (w : World) :
  events (foldl (λ w h, step h w) w hosts)
  = events w ++ added w (foldl (λ w h, step h w) w hosts).
Proof.
  revert w. induction hosts as [|h hosts IH]; intros w; simpl.
  - unfold added. by rewrite drop_all, app_nil_r.
  - unfold added at 1. rewrite IH, step_events, <- app_assoc.
    by rewrite drop_app_length.
Qed.

Lemma run_added_cons (h : Host) (hosts : list Host) (w : World) :
  added w (foldl (λ w h, step h w) w (h :: hosts))
  = added w (step h w) ++ added (step h w) (foldl (λ w h, step h w) (step h w) hosts).
Proof.
  simpl. unfold added at 1.
  by rewrite run_events, step_events, <- app_assoc, drop_app_length.
Qed.

Lemma step_emissions (h : Host) (w : World) :
  emissions (added w (step h w)) =
  match batch h (staticData w) with
  | Some (r :: b) => [r :: b]
  | _ => []
  end.
Proof.
  rewrite step_added. destruct (batch h (staticData w)) as [[|r b]|]; try done.
  change (emissions (EvListRequest :: ?l)) with (emissions l).
  unfold emissions. by rewrite omap_detailEvents.
Qed.

Lemma step_listRequests (h : Host) (w : World) :
  listRequests (added w (step h w)) = [tt].
Proof.
  rewrite step_added. destruct (batch h (staticData w)) as [[|r b]|]; try done.
  change (listRequests (EvListRequest :: ?l)) with (tt :: listRequests l).
  unfold listRequests. by rewrite omap_detailEvents.
Qed.

Lemma step_sleeps (h : Host) (w : World) :
  sleeps (added w (step h w)) = [intervalSeconds cfg * 1000].
Proof.
  rewrite step_added. destruct (batch h (staticData w)) as [[|r b]|]; try done.
  change (sleeps (EvListRequest :: ?l)) with (sleeps l).
  unfold sleeps. by rewrite omap_detailEvents.
Qed.

(** X13. A run of [n] iterations makes exactly [n] listing requests and [n]
    sleeps of [intervalSeconds * 1000] milliseconds, hands the sink at most
    one batch per iteration, and never hands it an empty batch. *)
Theorem run_accounting (hosts : list Host) (w : World) :
  Forall (λ b, b ≠ []) (emissions (added w (loop hosts w).2))
  ∧ (length (emissions (added w (loop hosts w).2)) ≤ length hosts)%nat
  ∧ length (listRequests (added w (loop hosts w).2)) = length hosts
  ∧ sleeps (added w (loop hosts w).2)
    = replicate (length hosts) (intervalSeconds cfg * 1000).
Proof.
  rewrite (loop_run newDate cfg). cbn [snd]. revert w.
  induction hosts as [|h hosts IH]; intros w.
  - simpl. unfold added. rewrite drop_all. by repeat split.
  - rewrite run_added_cons. destruct (IH (step h w)) as (Hne & Hlen & Hreq & Hsl).
    unfold emissions, listRequests, sleeps in *. rewrite !omap_app.
    fold (emissions (added w (step h w))). fold (listRequests (added w (step h w))).
    fold (sleeps (added w (step h w))).
    rewrite step_emissions, step_listRequests, step_sleeps, !length_app.
    repeat split.
    + apply Forall_app. split; [|done].
      destruct (batch h (staticData w)) as [[|r b]|]; by repeat constructor.
    + destruct (batch h (staticData w)) as [[|r b]|]; simpl; lia.
    + simpl. by rewrite Hreq.
    + simpl. by rewrite Hsl.
Qed.

(** X14. A run that hands nothing to the sink leaves the watermark state
    exactly as it found it, however many iterations it makes and whatever
    the host answers. *)
Theorem silent_run_keeps_state (hosts : list Host) (w : World) :
  emissions (added w (loop hosts w).2) = [] →
  staticData (loop hosts w).2 = staticData w.
Proof.
  rewrite (loop_run newDate cfg). cbn [snd]. revert w.
  induction hosts as [|h hosts IH]; intros w Hsilent; [done|].
  rewrite run_added_cons in Hsilent. unfold emissions in Hsilent.
  rewrite omap_app in Hsilent. apply app_eq_nil in Hsilent as [Hfirst Hrest].
  fold (emissions (added w (step h w))) in Hfirst. rewrite step_emissions in Hfirst.
  simpl. rewrite (IH _ Hrest). unfold Spec.step.
  by destruct (batch h (staticData w)) as [[|r b]|].
Qed.

Lemma batch_updatedAt (h : Host) (sd : StaticData) (b : list Payload) (r : Payload) :
  batch h sd = Some b → r ∈ b →
  ∃ u t s, payload_updatedAt r = Some u ∧ u ≠ "" ∧ newDate u = Some t
           ∧ Spec.watermark newDate (seenMap sd !! payload_id r) = Some s ∧ s < t.
Proof.
  unfold Spec.batch. destruct (listResponse h) as [body|]; [|done].
  intros [= <-] (u & Hu & He)%(scan_updatedAt newDate cfg).
  apply (shouldEmit_true newDate) in He
    as (u' & t & [= <-] & Hne & Ht & _ & (s & Hs & Hst)).
  simpl in Hs. by exists u, t, s.
Qed.

Lemma step_seenMap (h : Host) (w : World) (i : string) :
  seenMap (staticData (step h w)) !! i = seenMap (staticData w) !! i
  ∨ ∃ u t s, seenMap (staticData (step h w)) !! i = Some u
             ∧ u ≠ "" ∧ newDate u = Some t
             ∧ Spec.watermark newDate (seenMap (staticData w) !! i) = Some s
             ∧ s < t.
Proof.
  unfold Spec.step.
  destruct (batch h (staticData w)) as [[|r0 b]|] eqn:Hb; [by left | | by left].
  cbn [staticData]. rewrite stored_lookup.
  destruct (last (filter _ (r0 :: b))) as [r|] eqn:Hlast; [|by left].
  apply last_Some_elem_of, list_elem_of_filter in Hlast as [Hi Hr].
  destruct (batch_updatedAt _ _ _ _ Hb Hr) as (u & t & s & Hu & Hne & Ht & Hs & Hst).
  right. exists u, t, s. rewrite Hi in Hs. by repeat split.
Qed.

(** X15. When every [seenMap] value is a non-empty string that parses as a
    date, this is still so after any run: the loop only stores timestamps
    that passed the decision. *)
Theorem seenMap_stays_valid (hosts : list Host) (w : World) :
  seenValid newDate (staticData w) →
  seenValid newDate (staticData (loop hosts w).2).
Proof.
  rewrite (loop_run newDate cfg). cbn [snd]. revert w.
  induction hosts as [|h hosts IH]; intros w Hvalid; [done|].
  simpl. apply IH. intros i s Hs.
  destruct (step_seenMap h w i) as [Hsame | (u & t & s0 & Hu & Hne & Ht & _)].
  - rewrite Hsame in Hs. by apply (Hvalid i).
  - rewrite Hu in Hs. injection Hs as <-. split; [done | by exists t].
Qed.

(** X16. An iteration either keeps the [seenMap] entry of an identifier or
    replaces it with a timestamp strictly later than the time the entry had
    (the epoch when there was none): a stored timestamp never moves back. *)
Theorem seenMap_entry_advances (h : Host) (w : World) (i : string) :
  seenMap (staticData (iteration h w).2) !! i = seenMap (staticData w) !! i
  ∨ ∃ s s',
      Spec.watermark newDate (seenMap (staticData w) !! i) = Some s
      ∧ Spec.watermark newDate (seenMap (staticData (iteration h w).2) !! i) = Some s'
      ∧ s < s'.
Proof.
  rewrite (iteration_run newDate cfg). cbn [snd].
  destruct (step_seenMap h w i) as [Hsame | (u & t & s & Hu & Hne & Ht & Hs & Hst)];
    [by left|].
  right. exists s, t. split; [done|]. split; [|done].
  rewrite Hu. unfold Spec.watermark. by rewrite (or_else_truthy _ _ Hne).
Qed.

(** ** Restarts, answer shapes and stopping *)

Lemma loop_app (hosts1 hosts2 : list Host) (w : World) :
  (loop (hosts1 ++ hosts2) w).2 = (loop hosts2 (loop hosts1 w).2).2.
Proof. rewrite !(loop_run newDate cfg). simpl. by rewrite foldl_app. Qed.

Lemma or_else_nonempty (v : option string) (d : string) :
  d ≠ "" → Js.or_else v d ≠ "".
Proof.
  intros Hd. unfold Js.or_else. destruct v as [s|]; [|done].
  by destruct (String.eqb_spec s "").
Qed.

Lemma init_persist (sd : StaticData) :
  lastSync sd ≠ "" → initStaticData (persist sd) = sd.
Proof.
  intros Hne. unfold initStaticData, persist. cbn [stored_lastSync stored_seenMap].
  rewrite (or_else_truthy _ _ Hne). by destruct sd.
Qed.

Lemma run_lastSync_nonempty (hosts : list Host) (w : World) :
  lastSync (staticData w) ≠ "" → Forall (λ h, nowIso h ≠ "") hosts →
  lastSync (staticData (foldl (λ w h, step h w) w hosts)) ≠ "".
Proof.
  revert w. induction hosts as [|h hosts IH]; intros w Hw Hnow; [done|].
  apply Forall_cons in Hnow as [Hh Hnow]. simpl. apply IH; [|done].
  by destruct (step_lastSync newDate cfg h w) as [-> | ->].
Qed.

(** The trace a run adds does not depend on the trace it starts with. *)
Lemma step_shift (h : Host) (sd : StaticData) (evs : list Event) :
  step h {| staticData := sd; events := evs |}
  = {| staticData := staticData (step h {| staticData := sd; events := [] |});
       events := evs ++ events (step h {| staticData := sd; events := [] |}) |}.
Proof.
  unfold Spec.step. simpl. by destruct (batch h sd) as [[|r b]|].
Qed.

Lemma run_shift (hosts : list Host) (sd : StaticData) (evs : list Event) :
  foldl (λ w h, step h w) {| staticData := sd; events := evs |} hosts
  = {| staticData :=
         staticData (foldl (λ w h, step h w) {| staticData := sd; events := [] |} hosts);
       events :=
         evs ++ events (foldl (λ w h, step h w)
                          {| staticData := sd; events := [] |} hosts) |}.
Proof.
  revert sd evs. induction hosts as [|h hosts IH]; intros sd evs; simpl.
  - by rewrite app_nil_r.
  - rewrite (step_shift h sd evs), IH.
    rewrite (step_shift h sd []). simpl.
    rewrite (IH _ (events (step h {| staticData := sd; events := [] |}))).
    simpl. by rewrite app_assoc.
Qed.

(** X17. Stopping the trigger and starting it again on the static data it
    left behind changes nothing: the second run ends in the watermark state
    of one uninterrupted run over all the iterations, and the two traces put
    together are the trace of that run. The wall-clock strings of the first
    run are not empty. *)
Theorem restart_resumes (stored : StoredData) (hosts1 hosts2 : list Host) :
  Forall (λ h, nowIso h ≠ "") hosts1 →
  staticData (trigger newDate cfg
                (persist (staticData (trigger newDate cfg stored hosts1).2)) hosts2).2
  = staticData (trigger newDate cfg stored (hosts1 ++ hosts2)).2
  ∧ events (trigger newDate cfg stored (hosts1 ++ hosts2)).2
    = events (trigger newDate cfg stored hosts1).2
      ++ events (trigger newDate cfg
                   (persist (staticData (trigger newDate cfg stored hosts1).2)) hosts2).2.
Proof.
  intros Hnow. unfold trigger. rewrite loop_app.
  rewrite !(loop_run newDate cfg). cbn [snd].
  set (w1 := foldl (λ w h, step h w)
               {| staticData := initStaticData stored; events := [] |} hosts1).
  assert (Hne : lastSync (staticData w1) ≠ "").
  { apply run_lastSync_nonempty; [|done]. simpl.
    by apply or_else_nonempty. }
  rewrite (init_persist _ Hne).
  destruct w1 as [sd1 evs1]. simpl. rewrite (run_shift hosts2 sd1 evs1). by simpl.
Qed.

Lemma batch_withBody (h : Host) (body : ListBody) (sd : StaticData) :
  batch (withBody h body) sd
  = Some (scan h (lastSync sd) (seenMap sd) (entries body) 0).
Proof.
  unfold Spec.batch. simpl. f_equal. by apply (scan_host_ext newDate cfg).
Qed.

Lemma step_withBody (h : Host) (body body' : ListBody) (w : World) :
  entries body = entries body' →
  step (withBody h body) w = step (withBody h body') w.
Proof.
  intros He. unfold Spec.step. by rewrite !batch_withBody, He.
Qed.

(** X18. The listing is read from a bare array and from an object with a
    [data] member alike, and an answer with neither counts as an empty
    listing: the iteration is the one on the empty array, which logs no
    error, emits nothing and keeps the watermark state. *)
Theorem listing_shape_irrelevant (h : Host) (w : World)
    (items : list (option Workflow)) :
  iteration (withBody h (BodyObject (Some items))) w
  = iteration (withBody h (BodyArray items)) w
  ∧ iteration (withBody h (BodyObject None)) w
    = iteration (withBody h (BodyArray [])) w
  ∧ added w (iteration (withBody h (BodyObject None)) w).2
    = [EvListRequest; EvSleep (intervalSeconds cfg * 1000)]
  ∧ staticData (iteration (withBody h (BodyObject None)) w).2 = staticData w.
Proof.
  rewrite !(iteration_run newDate cfg). cbn [snd].
  split; [|split; [|split]].
  - by rewrite (step_withBody h (BodyObject (Some items)) (BodyArray items)).
  - by rewrite (step_withBody h (BodyObject None) (BodyArray [])).
  - by rewrite step_added, batch_withBody.
  - unfold Spec.step. by rewrite batch_withBody.
Qed.

(** X19. [closeFunction] takes effect at the end of the iteration during
    which it runs: that iteration is carried through (its requests, its
    emission, its writes to the static data and its sleep), and nothing of
    what the schedule holds after it happens. *)
Theorem close_ends_after_current_iteration
    (before after : list (Host * bool)) (h : Host) (w : World) :
  Forall (λ x, x.2 = false) before →
  Lifecycle.loopWhileActive newDate cfg (before ++ (h, true) :: after) w
  = loop (before.*1 ++ [h]) w.
Proof.
  revert w. induction before as [|[h0 c0] before IH]; intros w Hopen.
  - simpl. unfold mbind, M_bind. rewrite (iteration_run newDate cfg). done.
  - apply Forall_cons in Hopen as [Hc0 Hopen]. simpl in Hc0. subst c0.
    simpl. unfold mbind, M_bind. rewrite (iteration_run newDate cfg).
    by apply IH.
Qed.

End RunMore.

(** * Properties of the transport *)

Section TransportFacts.

Import Transport.

Lemma trim_slashes (k : nat) : trimTrailingSlashes (slashes k) = "".
Proof. induction k as [|k IH]; [done|]. simpl. by rewrite IH. Qed.

Lemma append_snoc_nonempty (r : string) (c : ascii) : r +:+ String c "" ≠ "".
Proof. by destruct r. Qed.

Lemma trim_cons (c : ascii) (rest : string) :
  trimTrailingSlashes (String c rest)
  = if Ascii.eqb c "/" && String.eqb (trimTrailingSlashes rest) ""
    then "" else String c (trimTrailingSlashes rest).
Proof. done. Qed.

Lemma append_nil_l (s : string) : "" +:+ s = s.
Proof. done. Qed.

Lemma append_cons (c : ascii) (a b : string) : String c a +:+ b = String c (a +:+ b).
Proof. done. Qed.

Lemma trim_split (s : string) : ∃ k, s = trimTrailingSlashes s +:+ slashes k.
Proof.
  induction s as [|c rest [k Hk]]; [by exists 0%nat|].
  rewrite trim_cons.
  destruct (Ascii.eqb_spec c "/") as [->|Hc];
    destruct (String.eqb_spec (trimTrailingSlashes rest) "") as [He|He]; simpl.
  - rewrite He, append_nil_l in Hk. exists (S k). rewrite append_nil_l. simpl.
    by f_equal.
  - exists k. rewrite append_cons. by f_equal.
  - exists k. rewrite append_cons. by f_equal.
  - exists k. rewrite append_cons. by f_equal.
Qed.

Lemma trim_no_slash_end (s r : string) : trimTrailingSlashes s ≠ r +:+ "/".
Proof.
  revert r. induction s as [|c rest IH]; intros r.
  - simpl. intros Hr. symmetry in Hr. by apply append_snoc_nonempty in Hr.
  - rewrite trim_cons.
    destruct (Ascii.eqb_spec c "/") as [->|Hc];
      destruct (String.eqb_spec (trimTrailingSlashes rest) "") as [He|He]; simpl.
    + intros Hr. symmetry in Hr. by apply append_snoc_nonempty in Hr.
    + destruct r as [|c' r']; rewrite ?append_nil_l, ?append_cons; intros Hr.
      * by injection Hr.
      * injection Hr as _ Hr. by apply IH in Hr.
    + destruct r as [|c' r']; rewrite ?append_nil_l, ?append_cons; intros Hr.
      * injection Hr as Hr _. done.
      * injection Hr as _ Hr. by apply IH in Hr.
    + destruct r as [|c' r']; rewrite ?append_nil_l, ?append_cons; intros Hr.
      * injection Hr as Hr _. done.
      * injection Hr as _ Hr. by apply IH in Hr.
Qed.

Lemma trim_append_slashes (s : string) (k : nat) :
  trimTrailingSlashes (s +:+ slashes k) = trimTrailingSlashes s.
Proof.
  induction s as [|c rest IH]; [apply trim_slashes|].
  by rewrite append_cons, !trim_cons, IH.
Qed.

Lemma trim_idem (s : string) :
  trimTrailingSlashes (trimTrailingSlashes s) = trimTrailingSlashes s.
Proof.
  destruct (trim_split s) as [k Hk]. rewrite Hk at 2.
  by rewrite trim_append_slashes.
Qed.

(** X20. [baseUrl.replace(/\/+$/, '')] removes exactly the slashes that end
    the string: the parameter is the result followed by a run of slashes, the
    result does not end with a slash, trimming again changes nothing, and
    parameters that differ by trailing slashes only give the same result. *)
Theorem trimTrailingSlashes_spec (s : string) :
  (∃ k, s = trimTrailingSlashes s +:+ slashes k)
  ∧ (∀ r, trimTrailingSlashes s ≠ r +:+ "/")
  ∧ trimTrailingSlashes (trimTrailingSlashes s) = trimTrailingSlashes s
  ∧ (∀ k, trimTrailingSlashes (s +:+ slashes k) = trimTrailingSlashes s).
Proof.
  split; [apply trim_split|]. split; [apply trim_no_slash_end|].
  split; [apply trim_idem|]. apply trim_append_slashes.
Qed.

Lemma chars_append (a b : string) :
  String.list_ascii_of_string (a +:+ b)
  = String.list_ascii_of_string a ++ String.list_ascii_of_string b.
Proof. induction a as [|c a IH]; [done|]. rewrite append_cons. simpl. by rewrite IH. Qed.

Lemma percent_safe (c : ascii) :
  forallb safeChar (String.list_ascii_of_string (percent c)) = true.
Proof. destruct c as [[] [] [] [] [] [] [] []]; vm_compute; reflexivity. Qed.

Lemma encode_cons (c : ascii) (rest : string) :
  encodeURIComponent (String c rest)
  = (if unreserved c then String c "" else percent c) +:+ encodeURIComponent rest.
Proof. done. Qed.

Lemma encode_safe (s : string) :
  forallb safeChar (String.list_ascii_of_string (encodeURIComponent s)) = true.
Proof.
  induction s as [|c rest IH]; [done|].
  rewrite encode_cons, chars_append, forallb_app, IH, andb_true_r.
  destruct (unreserved c) eqn:Hc; [|apply percent_safe].
  simpl. unfold safeChar. by rewrite Hc.
Qed.

Lemma encode_unreserved (s : string) :
  forallb unreserved (String.list_ascii_of_string s) = true →
  encodeURIComponent s = s.
Proof.
  induction s as [|c rest IH]; [done|]. simpl.
  intros [Hc Hrest]%andb_true_iff. rewrite Hc, append_cons, append_nil_l.
  by rewrite IH.
Qed.

Lemma unescape_percent (c : ascii) (e : string) : unescape (percent c +:+ e) = c.
Proof. destruct c as [[] [] [] [] [] [] [] []]; vm_compute; reflexivity. Qed.

Lemma percent_append_inj (c1 c2 : ascii) (e1 e2 : string) :
  percent c1 +:+ e1 = percent c2 +:+ e2 → c1 = c2 ∧ e1 = e2.
Proof.
  intros Heq.
  assert (Hc : c1 = c2).
  { rewrite <- (unescape_percent c1 e1), Heq. apply unescape_percent. }
  subst c2. split; [done|].
  unfold percent in Heq. rewrite !append_cons, !append_nil_l in Heq.
  by injection Heq.
Qed.

Lemma unreserved_percent : unreserved "%" = false.
Proof. vm_compute. reflexivity. Qed.

Lemma encode_inj (s1 s2 : string) :
  encodeURIComponent s1 = encodeURIComponent s2 → s1 = s2.
Proof.
  revert s2. induction s1 as [|c1 r1 IH]; intros [|c2 r2].
  - done.
  - rewrite encode_cons. destruct (unreserved c2); discriminate.
  - rewrite encode_cons. destruct (unreserved c1); discriminate.
  - rewrite !encode_cons.
    destruct (unreserved c1) eqn:H1; destruct (unreserved c2) eqn:H2.
    + rewrite !append_cons, !append_nil_l. intros Heq.
      injection Heq as -> Heq. f_equal. by apply IH.
    + unfold percent. rewrite !append_cons, !append_nil_l. intros Heq.
      injection Heq as -> _. by rewrite unreserved_percent in H1.
    + unfold percent. rewrite !append_cons, !append_nil_l. intros Heq.
      injection Heq as <- _. by rewrite unreserved_percent in H2.
    + intros [-> Hr]%percent_append_inj. f_equal. by apply IH.
Qed.

(** X21. The request built by [requestJson] does not depend on the slashes
    that end the [baseUrl] parameter, and its address is the trimmed
    parameter followed by the path. *)
Theorem requests_ignore_trailing_slashes (base : string) (k : nat) (timeout : Z)
    (creds helper : bool) (path : string) :
  requestJson (base +:+ slashes k) timeout creds helper path
  = requestJson base timeout creds helper path
  ∧ uri (optionsOf (requestJson base timeout creds helper path))
    = trimTrailingSlashes base +:+ path.
Proof.
  unfold requestJson, baseUrl. rewrite trim_append_slashes.
  split; [done|]. by destruct (creds && helper).
Qed.

(** X22. The identifier enters the detail path through
    [encodeURIComponent]: the encoded identifier is made of unreserved
    characters and [%] only, so it holds no slash, and an identifier made of
    unreserved characters (a number, say) is used as it is. *)
Theorem encoded_identifier_safe (i : string) :
  (∀ c, c ∈ String.list_ascii_of_string (encodeURIComponent i) → safeChar c = true)
  ∧ ("/"%char ∉ String.list_ascii_of_string (encodeURIComponent i))
  ∧ (forallb unreserved (String.list_ascii_of_string i) = true →
     workflowPath i = "/api/v1/workflows/" +:+ i).
Proof.
  assert (Hsafe : ∀ c, c ∈ String.list_ascii_of_string (encodeURIComponent i) →
                       safeChar c = true).
  { intros c Hc. pose proof (encode_safe i) as Hall.
    rewrite forallb_forall in Hall. apply Hall. by apply list_elem_of_In. }
  split; [done|]. split.
  - intros Hc. apply Hsafe in Hc. vm_compute in Hc. discriminate.
  - intros Hi. unfold workflowPath. by rewrite encode_unreserved.
Qed.

(** X23. Two identifiers that give the same detail path are the same
    identifier. *)
Theorem workflowPath_inj (i1 i2 : string) :
  workflowPath i1 = workflowPath i2 → i1 = i2.
Proof.
  unfold workflowPath. intros Heq. apply encode_inj.
  repeat (rewrite append_cons in Heq). rewrite !append_nil_l in Heq.
  by injection Heq.
Qed.

End TransportFacts.

(** * Properties of the credential headers of the earlier revision *)

Section LegacyFacts.

Import Legacy.

Variable base64 : string → string.

Local Abbreviation buildAuthHeaders := (Legacy.buildAuthHeaders base64).
Local Abbreviation basicToken := (Legacy.basicToken base64).

Lemma truthy_or_else_empty (v : option string) :
  Js.truthy (Some (Js.or_else v "")) = Js.truthy v.
Proof.
  destruct v as [s|]; [|done]. unfold Js.or_else.
  by destruct (String.eqb_spec s "") as [->|].
Qed.

Lemma headers_no_proto (basic : option BasicAuth) :
  buildAuthHeaders basic None !! "__proto__" = None.
Proof.
  unfold Legacy.buildAuthHeaders. destruct basic as [b|]; simpl.
  - rewrite lookup_insert_ne by done. by apply lookup_singleton_ne.
  - by apply lookup_singleton_ne.
Qed.

(** X24. The header credential is written after the others: when its value
    is not empty the header named by the credential ([X-N8N-API-KEY] when the
    name is absent or empty) carries that value, also when the name is
    [Authorization] or [Accept], and every other header is as without the
    credential. The name [__proto__] is the exception: the assignment writes
    no header, and the headers are as without the credential, as they are
    when the value of the credential is absent or empty. *)
Theorem header_auth_written_last (basic : option BasicAuth) (ha : HeaderAuth) :
  (Js.truthy (value ha) = true → headerKey ha ≠ "__proto__" →
   buildAuthHeaders basic (Some ha) !! headerKey ha = Some (headerValue ha)
   ∧ ∀ k, k ≠ headerKey ha →
          buildAuthHeaders basic (Some ha) !! k = buildAuthHeaders basic None !! k)
  ∧ (Js.truthy (value ha) = true → headerKey ha = "__proto__" →
     buildAuthHeaders basic (Some ha) = buildAuthHeaders basic None)
  ∧ (Js.truthy (value ha) = false →
     buildAuthHeaders basic (Some ha) = buildAuthHeaders basic None).
Proof.
  pose proof (headers_no_proto basic) as Hproto.
  unfold Legacy.buildAuthHeaders, headerKey, headerValue in *.
  rewrite truthy_or_else_empty. unfold Js.set, Js.ignoresAssignment.
  split; [|split].
  - intros -> Hk. apply String.eqb_neq in Hk. rewrite Hk. simpl.
    split; [apply lookup_insert_eq|]. intros k Hk'. by rewrite lookup_insert_ne.
  - intros -> ->. simpl. by rewrite bool_decide_eq_true_2.
  - by intros ->.
Qed.

(** X25. Without a header credential the request carries [Accept:
    application/json], an [Authorization] header exactly when there is a
    basic credential, holding [Basic] and the base64 text of
    [user:password] with an absent field read as empty, and no other
    header. *)
Theorem auth_headers_without_header_auth (basic : option BasicAuth) :
  buildAuthHeaders basic None !! "Accept" = Some "application/json"
  ∧ buildAuthHeaders basic None !! "Authorization" = basicToken <$> basic
  ∧ (∀ k, k ≠ "Accept" → k ≠ "Authorization" →
          buildAuthHeaders basic None !! k = None).
Proof.
  unfold Legacy.buildAuthHeaders, basicToken. destruct basic as [b|]; simpl.
  - split; [|split].
    + rewrite lookup_insert_ne by done. apply lookup_singleton_eq.
    + apply lookup_insert_eq.
    + intros k Hk Hk'. rewrite lookup_insert_ne by done. by apply lookup_singleton_ne.
  - split; [|split].
    + apply lookup_singleton_eq.
    + by apply lookup_singleton_ne.
    + intros k Hk Hk'. by apply lookup_singleton_ne.
Qed.
End LegacyFacts.

(** * The properties on concrete inputs *)

Section Examples.

Import Node Spec Scenario.

Local Abbreviation newDate := IsoDate.newDate.

Example newDate_epoch : newDate Diff.EPOCH = Some 0.
Proof. vm_compute. reflexivity. Qed.

Example newDate_noon : newDate t1200 = Some 1761739200000.
Proof. vm_compute. reflexivity. Qed.

Example newDate_garbage : newDate "nope" = None.
Proof. vm_compute. reflexivity. Qed.

Example String_number : String_ (IdNum 7) = "7".
Proof. vm_compute. reflexivity. Qed.

(** The cases of the unit tests of [shouldEmit]. *)
Example test_missing :
  Diff.shouldEmit newDate
    {| Diff.updatedAtIso := None; Diff.lastSyncIso := Some t1200;
       Diff.seenAtIso := None |} = false.
Proof. reflexivity. Qed.

Example test_newer :
  Diff.shouldEmit newDate
    {| Diff.updatedAtIso := Some t1210; Diff.lastSyncIso := Some t1205;
       Diff.seenAtIso := Some "2025-10-29T12:06:00.000Z" |} = true.
Proof. vm_compute. reflexivity. Qed.

Example test_equal_lastSync :
  Diff.shouldEmit newDate
    {| Diff.updatedAtIso := Some t1205; Diff.lastSyncIso := Some t1205;
       Diff.seenAtIso := Some t1200 |} = false.
Proof. vm_compute. reflexivity. Qed.

Example scenario_A :
  (iteration newDate (config 1000) (host [orders; stale] detailOk t1230) (startedAt t1200)).2
  = {| staticData := {| lastSync := t1230; seenMap := {[ "7" := t1210 ]} |};
       events := [EvListRequest; EvDetailRequest "7";
                  EvEmit [record "7" "Orders" t1210 (Some (detailOf "7"))];
                  EvSleep 10000] |}.
Proof. vm_compute. reflexivity. Qed.

(** An identifier that names a member of [Object.prototype]: the read of
    [seenMap] finds the inherited member and the entry is passed over, unless
    [seenMap] has an own entry under that name. *)
Example inherited_member_read :
  (buildBatch newDate (config 1000)
     (host [workflow (IdStr "constructor") "Ctor" t1210; orders] detailOk t1230)
     (startedAt t1200)).1
  = Ok [record "7" "Orders" t1210 (Some (detailOf "7"))].
Proof. vm_compute. reflexivity. Qed.

Example own_entry_read :
  (buildBatch newDate (config 1000)
     (host [workflow (IdStr "constructor") "Ctor" t1210] detailFails t1230)
     {| staticData := {| lastSync := t1200;
                         seenMap := {[ "constructor" := t1205 ]} |};
        events := [] |}).1
  = Ok [record "constructor" "Ctor" t1210 None].
Proof. vm_compute. reflexivity. Qed.

(** *** The decision function *)

Lemma shouldEmit_iff_witness :
  Diff.shouldEmit newDate
    {| Diff.updatedAtIso := Some t1210; Diff.lastSyncIso := Some t1205;
       Diff.seenAtIso := None |} = true.
Proof.
  apply (proj1 (shouldEmit_iff newDate _)).
  exists t1210, 1761739800000. simpl.
  split; [reflexivity|]. split; [discriminate|]. split; [vm_compute; reflexivity|].
  split.
  - exists 1761739500000. split; [vm_compute; reflexivity | lia].
  - exists 0. split; [vm_compute; reflexivity | lia].
Defined.

(** A corrupted [lastSyncIso] is not read as the epoch: the decision is
    [false] with it and [true] with the epoch string. *)
Lemma corrupted_watermark_not_epoch :
  newDate "corrupted" = None
  ∧ Diff.shouldEmit newDate
      {| Diff.updatedAtIso := Some t1210; Diff.lastSyncIso := Some "corrupted";
         Diff.seenAtIso := None |} = false
  ∧ Diff.shouldEmit newDate
      {| Diff.updatedAtIso := Some t1210; Diff.lastSyncIso := Some Diff.EPOCH;
         Diff.seenAtIso := None |} = true.
Proof. vm_compute. repeat split; reflexivity. Qed.

Lemma shouldEmit_watermark_default_witness :
  Diff.shouldEmit newDate
    {| Diff.updatedAtIso := Some t1210; Diff.lastSyncIso := Some "";
       Diff.seenAtIso := None |}
  = Diff.shouldEmit newDate
      {| Diff.updatedAtIso := Some t1210; Diff.lastSyncIso := Some Diff.EPOCH;
         Diff.seenAtIso := None |}
  ∧ Diff.shouldEmit newDate
      {| Diff.updatedAtIso := Some t1210; Diff.lastSyncIso := Some "corrupted";
         Diff.seenAtIso := None |} = false.
Proof.
  split.
  - apply (proj1 (shouldEmit_watermark_default newDate (Some t1210) (Some "") None)).
    reflexivity.
  - apply (proj2 (proj2 (shouldEmit_watermark_default newDate (Some t1210)
                           (Some "corrupted") None)) "corrupted").
    + discriminate.
    + vm_compute. reflexivity.
    + left. reflexivity.
Defined.

(** *** One cycle *)

(** The same identifier twice in one batch, with two timestamps: [seenMap]
    keeps the second, so the first record does not find its own. *)
Lemma duplicate_identifier_last_wins :
  (buildBatch newDate (config 1000) (host [orders; ordersLater] detailOk t1212) fresh).1
  = Ok [record "7" "Orders" t1210 (Some (detailOf "7"));
        record "7" "Orders" t1211 (Some (detailOf "7"))]
  ∧ seenMap (staticData
      (iteration newDate (config 1000) (host [orders; ordersLater] detailOk t1212) fresh).2)
    !! "7" = Some t1211.
Proof. vm_compute. split; reflexivity. Qed.

Lemma emission_stores_watermarks_witness :
  lastSync (staticData
    (iteration newDate (config 1000) (host [orders; billing] detailOk t1230) fresh).2)
  = t1230
  ∧ seenMap (staticData
      (iteration newDate (config 1000) (host [orders; billing] detailOk t1230) fresh).2)
    !! "7" = Some t1210.
Proof.
  assert (Hb : (buildBatch newDate (config 1000)
                  (host [orders; billing] detailOk t1230) fresh).1
               = Ok [record "7" "Orders" t1210 (Some (detailOf "7"));
                     record "b2" "Billing" t1211 (Some (detailOf "b2"))])
    by (vm_compute; reflexivity).
  destruct (emission_stores_watermarks newDate (config 1000) _ _ _ Hb
              ltac:(discriminate)) as (_ & Hls & _ & Hseen & _).
  split; [exact Hls|]. rewrite Hseen. vm_compute. reflexivity.
Defined.

Lemma empty_batch_leaves_watermarks_witness :
  emissions (added (startedAt t1200)
    (iteration newDate (config 1000) (host [stale] detailOk t1230) (startedAt t1200)).2)
  = []
  ∧ staticData
      (iteration newDate (config 1000) (host [stale] detailOk t1230) (startedAt t1200)).2
    = staticData (startedAt t1200).
Proof.
  apply (empty_batch_leaves_watermarks newDate (config 1000)
           (host [stale] detailOk t1230) (startedAt t1200)).
  vm_compute. reflexivity.
Defined.

Lemma listing_failure_skips_cycle_witness :
  (iteration newDate (config 1000) (hostDown t1230) (startedAt t1200)).1 = Ok tt
  ∧ staticData (iteration newDate (config 1000) (hostDown t1230) (startedAt t1200)).2
    = staticData (startedAt t1200).
Proof.
  destruct (listing_failure_skips_cycle newDate (config 1000) (hostDown t1230) []
              (startedAt t1200) eq_refl) as (_ & Hok & _ & Hsd & _).
  split; [exact Hok | exact Hsd].
Defined.

Lemma detail_failure_keeps_record_witness :
  ∃ b, (buildBatch newDate (config 1000)
          (host [orders; billing] (detailFailsFor "7") t1230) fresh).1 = Ok b
       ∧ b !! 0%nat = Some (record "7" "Orders" t1210 None)
       ∧ emissions
           (added fresh
              (iteration newDate (config 1000)
                 (host [orders; billing] (detailFailsFor "7") t1230) fresh).2)
         = [b].
Proof.
  destruct (detail_failure_keeps_record newDate (config 1000)
              (host [orders; billing] (detailFailsFor "7") t1230) fresh
              (BodyArray (Some <$> [orders; billing])) 0%nat orders (IdNum 7))
    as (b & Hb & Hr & _ & Hemit & _).
  - reflexivity.
  - reflexivity.
  - reflexivity.
  - vm_compute. reflexivity.
  - vm_compute. reflexivity.
  - intros n Hn. vm_compute in Hn. injection Hn as <-.
    assert (length (qualifying newDate (config 1000) (staticData fresh)
                      (take 1 (entries (BodyArray (Some <$> [orders; billing])))))
            = 1%nat) as -> by (vm_compute; reflexivity).
    lia.
  - vm_compute. reflexivity.
  - exists b. split; [exact Hb|]. split; [exact Hr | exact Hemit].
Defined.

(** A cap of one and a half: the scan stops at two records, which is more
    than the cap. *)
Lemma fractional_cap_exceeded :
  (buildBatch newDate (configWith (3 # 2))
     (host [orders; billing; catalog] detailOk t1230) fresh).1
  = Ok [record "7" "Orders" t1210 (Some (detailOf "7"));
        record "b2" "Billing" t1211 (Some (detailOf "b2"))]
  ∧ Qle_bool (inject_Z 2) (3 # 2) = false.
Proof. vm_compute. split; reflexivity. Qed.

Lemma batch_respects_cap_witness :
  ∃ b, (buildBatch newDate (config 1) (host [orders; billing] detailOk t1230) fresh).1
       = Ok b
       ∧ Z.of_nat (length b) ≤ 1.
Proof.
  destruct (batch_respects_cap newDate (config 1)
              (host [orders; billing] detailOk t1230) fresh _ eq_refl)
    as (b & Hb & Hpos & _).
  exists b. split; [exact Hb|].
  destruct (Hpos ltac:(reflexivity)) as (Hlen & _). exact Hlen.
Defined.



(** *** Several cycles *)

Lemma lastSync_monotone_witness :
  (loop newDate (config 1000)
     [host [orders] detailOk t1212; hostDown t1230] fresh).1 = Ok tt
  ∧ ∃ a b,
      Spec.watermark newDate (Some (lastSync (staticData fresh))) = Some a
      ∧ Spec.watermark newDate
          (Some (lastSync (staticData
             (iteration newDate (config 1000) (host [orders] detailOk t1212) fresh).2)))
        = Some b
      ∧ a ≤ b.
Proof.
  destruct (lastSync_monotone newDate (config 1000)
              [host [orders] detailOk t1212; hostDown t1230] fresh
              0 [1761739920000; 1761741000000])
    as (Hok & _ & _ & _ & Hmono).
  - vm_compute. reflexivity.
  - repeat constructor; vm_compute; reflexivity.
  - repeat constructor; lia.
  - split; [exact Hok|].
    apply (Hmono 0%nat); vm_compute; reflexivity.
Defined.

(** A cap of one and a wall clock behind the listed timestamps: the second
    cycle on the same listing emits the entry the first one left out. *)
Lemma second_cycle_emits_deferred_entry :
  (buildBatch newDate (config 1) (host [orders; billing] detailOk t1205) fresh).1
  = Ok [record "7" "Orders" t1210 (Some (detailOf "7"))]
  ∧ emissions
      (added (iteration newDate (config 1) (host [orders; billing] detailOk t1205) fresh).2
         (iteration newDate (config 1) (host [orders; billing] detailOk t1205)
            (iteration newDate (config 1) (host [orders; billing] detailOk t1205) fresh).2).2)
    = [[record "b2" "Billing" t1211 (Some (detailOf "b2"))]].
Proof. vm_compute. split; reflexivity. Qed.

Lemma second_cycle_silent_witness :
  emissions
    (added (iteration newDate (config 1000) (host [orders; billing] detailOk t1230) fresh).2
       (iteration newDate (config 1000) (host [orders; billing] detailOk t1230)
          (iteration newDate (config 1000) (host [orders; billing] detailOk t1230) fresh).2).2)
  = [].
Proof.
  assert (Hb : (buildBatch newDate (config 1000)
                  (host [orders; billing] detailOk t1230) fresh).1
               = Ok [record "7" "Orders" t1210 (Some (detailOf "7"));
                     record "b2" "Billing" t1211 (Some (detailOf "b2"))])
    by (vm_compute; reflexivity).
  destruct (second_cycle_silent newDate (config 1000)
              (host [orders; billing] detailOk t1230)
              (host [orders; billing] detailOk t1230) fresh _ _
              eq_refl eq_refl Hb ltac:(discriminate)) as (_ & _ & _ & Hquiet).
  apply Hquiet. right. split; [|split].
  - apply (bool_decide_unpack _). vm_compute. exact I.
  - vm_compute. reflexivity.
  - exists 0, 1761741000000. vm_compute. repeat split; try reflexivity. discriminate.
Defined.

(** *** Further properties *)

Lemma emitted_is_newer_witness :
  ∃ u t l s,
    Some t1210 = Some u ∧ newDate u = Some t
    ∧ Spec.watermark newDate (Some t1200) = Some l ∧ l < t
    ∧ Spec.watermark newDate (@None string) = Some s ∧ s < t.
Proof.
  apply (emitted_is_newer newDate (config 1000) (host [orders; stale] detailOk t1230)
           (startedAt t1200)
           [record "7" "Orders" t1210 (Some (detailOf "7"))]
           (record "7" "Orders" t1210 (Some (detailOf "7")))).
  - vm_compute. reflexivity.
  - constructor.
Defined.


Lemma excluded_name_not_emitted_witness :
  excluded (config 1000) "Orders" = false.
Proof.
  apply (excluded_name_not_emitted newDate (config 1000)
           (host [workflow (IdNum 1) "_hidden" t1211; orders] detailOk t1230) fresh
           [record "7" "Orders" t1210 (Some (detailOf "7"))]
           (record "7" "Orders" t1210 (Some (detailOf "7")))).
  - vm_compute. reflexivity.
  - constructor.
Defined.

Lemma seenMap_keeps_entries_witness :
  is_Some (seenMap (staticData
    (iteration newDate (config 1000) (host [billing] detailOk t1230)
       {| staticData := {| lastSync := t1200; seenMap := {[ "7" := t1210 ]} |};
          events := [] |}).2) !! "7").
Proof.
  apply (seenMap_keeps_entries newDate (config 1000) (host [billing] detailOk t1230)
           {| staticData := {| lastSync := t1200; seenMap := {[ "7" := t1210 ]} |};
              events := [] |} "7").
  exists t1210. vm_compute. reflexivity.
Defined.

(** *** The added properties *)

Lemma shouldEmit_monotone_witness :
  Diff.shouldEmit newDate
    {| Diff.updatedAtIso := Some t1211; Diff.lastSyncIso := Some t1200;
       Diff.seenAtIso := None |} = true.
Proof.
  apply (shouldEmit_monotone newDate
           {| Diff.updatedAtIso := Some t1210; Diff.lastSyncIso := Some t1205;
              Diff.seenAtIso := None |}
           {| Diff.updatedAtIso := Some t1211; Diff.lastSyncIso := Some t1200;
              Diff.seenAtIso := None |}
           t1210 t1211 1761739800000 1761739860000 1761739500000 1761739200000 0 0);
    try (vm_compute; reflexivity); try lia.
  discriminate.
Defined.

Lemma unusable_updatedAt_skipped_witness :
  Node.forOf newDate (config 1000) (host [] detailOk t1230) Diff.EPOCH
    [Some {| id := Some (IdNum 5); name := Some "Empty"; updatedAt := Some "";
             updated_at := Some t1211 |}; Some billing] [] fresh
  = Node.forOf newDate (config 1000) (host [] detailOk t1230) Diff.EPOCH
      [Some billing] [] fresh.
Proof.
  apply (unusable_updatedAt_skipped newDate (config 1000) _ _ _ "").
  - reflexivity.
  - left. reflexivity.
Defined.

Lemma record_provenance_witness :
  ∃ wf rawId,
    Some wf ∈ [Some {| id := Some (IdNum 9); name := None; updatedAt := None;
                       updated_at := Some t1210 |}]
    ∧ id wf = Some rawId
    ∧ "9" = String_ rawId
    ∧ "workflow-9" = default ("workflow-" +:+ String_ rawId) (name wf)
    ∧ Some t1210 = Js.nullish (updatedAt wf) (updated_at wf).
Proof.
  apply (record_provenance newDate (config 1000)
           (host [{| id := Some (IdNum 9); name := None; updatedAt := None;
                     updated_at := Some t1210 |}] detailFails t1230)
           fresh
           (BodyArray [Some {| id := Some (IdNum 9); name := None; updatedAt := None;
                               updated_at := Some t1210 |}])
           [record "9" "workflow-9" t1210 None]
           (record "9" "workflow-9" t1210 None)).
  - reflexivity.
  - vm_compute. reflexivity.
  - constructor.
Defined.

Lemma qualifying_entry_emitted_witness :
  ∃ b k r,
    (buildBatch newDate (config 1000) (host [stale; orders] detailOk t1230)
       (startedAt t1200)).1 = Ok b
    ∧ b !! k = Some r
    ∧ emissions
        (added (startedAt t1200)
           (iteration newDate (config 1000) (host [stale; orders] detailOk t1230)
              (startedAt t1200)).2)
      = [b]
    ∧ payload_id r = "7" ∧ payload_name r = "Orders"
    ∧ payload_updatedAt r = Some t1210.
Proof.
  apply (qualifying_entry_emitted newDate (config 1000)
           (host [stale; orders] detailOk t1230) (startedAt t1200)
           (BodyArray (Some <$> [stale; orders]))
           1%nat orders (IdNum 7) t1210 1761739800000 1761739200000 0);
    try (vm_compute; reflexivity); try lia.
  - discriminate.
  - vm_compute. discriminate.
  - intros n Hn. vm_compute in Hn. injection Hn as <-.
    assert (length (qualifying newDate (config 1000) (staticData (startedAt t1200))
                      (take 2 (entries (BodyArray (Some <$> [stale; orders])))))
            = 1%nat) as -> by (vm_compute; reflexivity).
    lia.
Defined.

Lemma detail_request_accounting_witness :
  detailRequests
    (added fresh
       (iteration newDate (config 1000) (host [orders; billing] detailOk t1230) fresh).2)
  `sublist_of` (payload_id <$> [record "7" "Orders" t1210 (Some (detailOf "7"));
                                record "b2" "Billing" t1211 (Some (detailOf "b2"))]).
Proof.
  apply (proj1 (detail_request_accounting newDate (config 1000)
                  (host [orders; billing] detailOk t1230) fresh
                  [record "7" "Orders" t1210 (Some (detailOf "7"));
                   record "b2" "Billing" t1211 (Some (detailOf "b2"))]
                  ltac:(vm_compute; reflexivity))).
Defined.

Lemma workflow_field_truthy_witness :
  Js.truthyJson (detailOf "7") = true ∧ emitFullWorkflow (config 1000) = true.
Proof.
  apply (workflow_field_truthy newDate (config 1000)
           (host [orders] detailOk t1230) fresh
           [record "7" "Orders" t1210 (Some (detailOf "7"))]
           (record "7" "Orders" t1210 (Some (detailOf "7")))).
  - vm_compute. reflexivity.
  - constructor.
  - reflexivity.
Defined.


Lemma silent_run_keeps_state_witness :
  staticData (loop newDate (config 1000)
                [host [stale] detailOk t1212; hostDown t1230] (startedAt t1200)).2
  = staticData (startedAt t1200).
Proof.
  apply (silent_run_keeps_state newDate (config 1000)).
  vm_compute. reflexivity.
Defined.

Lemma seenMap_stays_valid_witness :
  seenValid newDate
    (staticData (loop newDate (config 1000) [host [billing] detailOk t1230]
                   {| staticData := {| lastSync := t1200;
                                       seenMap := {[ "7" := t1210 ]} |};
                      events := [] |}).2).
Proof.
  apply (seenMap_stays_valid newDate (config 1000)).
  intros i s Hs. simpl in Hs. apply lookup_singleton_Some in Hs as [_ <-].
  split; [discriminate|]. vm_compute. eexists. reflexivity.
Defined.

Lemma restart_resumes_witness :
  staticData (trigger newDate (config 1000)
                (persist (staticData
                   (trigger newDate (config 1000)
                      {| stored_lastSync := None; stored_seenMap := None |}
                      [host [orders] detailOk t1212]).2))
                [host [orders; billing] detailOk t1230]).2
  = staticData (trigger newDate (config 1000)
                  {| stored_lastSync := None; stored_seenMap := None |}
                  ([host [orders] detailOk t1212]
                   ++ [host [orders; billing] detailOk t1230])).2.
Proof.
  apply (proj1 (restart_resumes newDate (config 1000)
                  {| stored_lastSync := None; stored_seenMap := None |}
                  [host [orders] detailOk t1212]
                  [host [orders; billing] detailOk t1230]
                  ltac:(repeat constructor; discriminate))).
Defined.

Lemma close_ends_after_current_iteration_witness :
  Lifecycle.loopWhileActive newDate (config 1000)
    ([(host [stale] detailOk t1205, false)]
     ++ (host [orders] detailOk t1212, true) :: [(host [billing] detailOk t1230, false)])
    (startedAt t1200)
  = loop newDate (config 1000)
      ([(host [stale] detailOk t1205, false)].*1 ++ [host [orders] detailOk t1212])
      (startedAt t1200).
Proof.
  apply (close_ends_after_current_iteration newDate (config 1000)).
  repeat constructor.
Defined.

Lemma workflowPath_inj_witness : "a/b" = "a/b".
Proof. apply (workflowPath_inj "a/b" "a/b"). reflexivity. Defined.

End Examples.
